(** * A fixed-capacity pool allocator: [memory_manager.c]

    Shallow embedding of the block-management engine of
    [src/memory_manager.c] (first-fit allocation with splitting, release
    with forward coalescing, resize by allocate-copy-release) together
    with the properties its specification states about it.

    Modelling choices.
    - [size_t] is a 64-bit unsigned integer: a [Z] in [0, 2^64); the one
      place where the code can wrap, [block_size += ...] in [mem_free],
      has its reduction modulo [2^64] written out.
    - [void*] is an address, a [Z]; [NULL] is [0].  Pointer arithmetic
      [(char* )p + n] is integer addition (the C standard gives no
      meaning to a pointer that leaves its object, so nothing wraps).
    - The singly linked list hanging off [pool_head] is owned by the
      manager and never shared: it is a [list MemBlock], the
      [next_block] link of a node being the tail that follows it.
    - [malloc] for a descriptor record may fail: each call that can
      reach it takes the outcome as a boolean.
    - What goes to [stderr] is appended to a log of messages. *)

From Stdlib Require Import ZArith List Bool Lia Sorted.
From Stdlib Require Import Strings.Byte.
Import ListNotations.
Open Scope Z_scope.

(** ** Data model *)

Definition SIZE_MODULUS : Z := 2 ^ 64.

(** Arithmetic on [size_t] is modulo [2^64]. *)
Definition size_add (a b : Z) : Z := (a + b) mod SIZE_MODULUS.

Definition NULL : Z := 0.

(** [struct MemBlock]; [next_block] is the rest of the list. *)
Record MemBlock : Type := mkBlock {
  block_size : Z;
  is_available : bool;
  data_ptr : Z
}.

(** Lines written to [stderr]. *)
Inductive Msg : Type :=
| PerrorNewBlock
| WarnFreeNull
| WarnAlreadyFree (p : Z)
| WarnNotFromPool (p : Z)
| WarnResizeNotFound (p : Z).

(** The module's global variables, the bytes of memory and the log. *)
Record Pool : Type := mkPool {
  pool_start : Z;
  pool_head : list MemBlock;
  total_pool_size : Z;
  memory : Z -> byte;
  stderr : list Msg
}.

Definition set_head (l : list MemBlock) (w : Pool) : Pool :=
  mkPool (pool_start w) l (total_pool_size w) (memory w) (stderr w).

Definition set_memory (m : Z -> byte) (w : Pool) : Pool :=
  mkPool (pool_start w) (pool_head w) (total_pool_size w) m (stderr w).

Definition log (ms : list Msg) (w : Pool) : Pool :=
  mkPool (pool_start w) (pool_head w) (total_pool_size w) (memory w)
         (stderr w ++ ms).

Definition set_available (a : bool) (b : MemBlock) : MemBlock :=
  mkBlock (block_size b) a (data_ptr b).

Definition set_size (n : Z) (b : MemBlock) : MemBlock :=
  mkBlock n (is_available b) (data_ptr b).

(** ** mem_init *)

(** [arena] is what [malloc(pool_size)] returned and [meta_ok] tells
    whether the [malloc] of the first descriptor succeeded; [None] is
    [exit(EXIT_FAILURE)]. *)
Definition mem_init (arena : Z) (meta_ok : bool) (pool_size : Z) (w : Pool)
  : option Pool :=
  if arena =? NULL then None
  else if negb meta_ok then None
  else Some (mkPool arena
                    [mkBlock pool_size true arena]
                    pool_size (memory w) (stderr w)).

(** ** mem_alloc *)

(** The test of the [if] inside the search loop. *)
Definition fits (size : Z) (b : MemBlock) : bool :=
  is_available b && (size <=? block_size b).

(** The [while (current != NULL)] loop of [mem_alloc], started at
    [current]: the returned pointer, the list from [current] on, and what
    was printed. *)
Fixpoint alloc_walk (malloc_ok : bool) (size : Z) (current : list MemBlock)
  : Z * list MemBlock * list Msg :=
  match current with
  | [] => (NULL, [], [])
  | b :: rest =>
      if fits size b then
        if size <? block_size b then
          if malloc_ok then
            let new_block :=
              mkBlock (block_size b - size) true (data_ptr b + size) in
            (data_ptr b,
             mkBlock size false (data_ptr b) :: new_block :: rest, [])
          else (NULL, b :: rest, [PerrorNewBlock])
        else (data_ptr b, set_available false b :: rest, [])
      else
        let '(p, rest', ms) := alloc_walk malloc_ok size rest in
        (p, b :: rest', ms)
  end.

Definition mem_alloc (malloc_ok : bool) (size : Z) (w : Pool) : Z * Pool :=
  let '(p, l, ms) := alloc_walk malloc_ok size (pool_head w) in
  (p, log ms (set_head l w)).

(** ** mem_free *)

(** The inner merging loop: [current] absorbs the available blocks that
    follow it. *)
Fixpoint coalesce (current : MemBlock) (next : list MemBlock)
  : list MemBlock :=
  match next with
  | nb :: rest =>
      if is_available nb then
        coalesce (set_size (size_add (block_size current) (block_size nb))
                           current) rest
      else current :: next
  | [] => [current]
  end.

(** The outer loop of [mem_free] for a non-null [ptr]. *)
Fixpoint free_walk (ptr : Z) (current : list MemBlock)
  : list MemBlock * list Msg :=
  match current with
  | [] => ([], [WarnNotFromPool ptr])
  | b :: rest =>
      if data_ptr b =? ptr then
        if is_available b then (b :: rest, [WarnAlreadyFree ptr])
        else (coalesce (set_available true b) rest, [])
      else
        let '(rest', ms) := free_walk ptr rest in
        (b :: rest', ms)
  end.

Definition mem_free (ptr : Z) (w : Pool) : Pool :=
  if ptr =? NULL then log [WarnFreeNull] w
  else
    let '(l, ms) := free_walk ptr (pool_head w) in
    log ms (set_head l w).

(** ** mem_resize *)

(** [memcpy] as the byte loop that copies upwards from the first byte. *)
Fixpoint copy_bytes (n : nat) (dst src : Z) (m : Z -> byte) : Z -> byte :=
  match n with
  | O => m
  | S k =>
      copy_bytes k (dst + 1) (src + 1)
                 (fun a => if a =? dst then m src else m a)
  end.

Definition memcpy (dst src n : Z) (w : Pool) : Pool :=
  set_memory (copy_bytes (Z.to_nat n) dst src (memory w)) w.

(** The search loop of [mem_resize]: the first descriptor whose
    [data_ptr] is [ptr]. *)
Fixpoint find_block (ptr : Z) (l : list MemBlock) : option MemBlock :=
  match l with
  | [] => None
  | b :: rest => if data_ptr b =? ptr then Some b else find_block ptr rest
  end.

(** [block->block_size] is read for [memcpy] after [mem_alloc] returned;
    [mem_alloc] writes only to the descriptor it hands out, which has at
    least [size] bytes and so is not [block], hence the value is the one
    the search saw. *)
Definition mem_resize (malloc_ok : bool) (ptr size : Z) (w : Pool)
  : Z * Pool :=
  if ptr =? NULL then mem_alloc malloc_ok size w
  else
    match find_block ptr (pool_head w) with
    | Some block =>
        if size <=? block_size block then (ptr, w)
        else
          let '(new_ptr, w1) := mem_alloc malloc_ok size w in
          if new_ptr =? NULL then (new_ptr, w1)
          else (new_ptr, mem_free ptr (memcpy new_ptr ptr (block_size block) w1))
    | None => (NULL, log [WarnResizeNotFound ptr] w)
    end.

(** ** mem_deinit *)

Definition mem_deinit (w : Pool) : Pool :=
  mkPool NULL [] 0 (memory w) (stderr w).

(** ** Sequences of public operations *)

Inductive Op : Type :=
| Alloc (malloc_ok : bool) (size : Z)
| Free (ptr : Z)
| Resize (malloc_ok : bool) (ptr size : Z).

Definition step (w : Pool) (op : Op) : Pool :=
  match op with
  | Alloc ok n => snd (mem_alloc ok n w)
  | Free p => mem_free p w
  | Resize ok p n => snd (mem_resize ok p n w)
  end.

Definition run (ops : list Op) (w : Pool) : Pool := fold_left step ops w.

(** The requested size is a [size_t]. *)
Definition op_typed (op : Op) : Prop :=
  match op with
  | Alloc _ n => 0 <= n < SIZE_MODULUS
  | Free _ => True
  | Resize _ _ n => 0 <= n < SIZE_MODULUS
  end.

(** The request never reaches [mem_alloc] with size zero. *)
Definition op_positive (op : Op) : Prop :=
  match op with
  | Alloc _ n => 0 < n
  | Free _ => True
  | Resize _ p n => p = NULL -> 0 < n
  end.

(** A pool before [mem_init], with zeroed memory. *)
Definition blank : Pool := mkPool NULL [] 0 (fun _ => x00) [].

(** ** The partition of the arena *)

(** [tiles start l stop]: the descriptors of [l] lie one after the other,
    the first at [start], each where the previous one ends, the last
    ending at [stop]. *)
Fixpoint tiles (start : Z) (l : list MemBlock) (stop : Z) : Prop :=
  match l with
  | [] => start = stop
  | b :: rest =>
      data_ptr b = start /\ 0 <= block_size b /\
      tiles (start + block_size b) rest stop
  end.

(** What every state reached from [mem_init] satisfies. *)
Definition pool_inv (w : Pool) : Prop :=
  0 < pool_start w /\
  0 < total_pool_size w < SIZE_MODULUS /\
  tiles (pool_start w) (pool_head w) (pool_start w + total_pool_size w).

Definition in_segment (b : MemBlock) (a : Z) : Prop :=
  data_ptr b <= a < data_ptr b + block_size b.

(** Every arena address lies in a segment, segments hold arena addresses
    only, and no address lies in the segments of two descriptors. *)
Definition exact_cover (base total : Z) (l : list MemBlock) : Prop :=
  (forall a, base <= a < base + total <->
             exists b, In b l /\ in_segment b a) /\
  (forall i j bi bj a,
      nth_error l i = Some bi -> nth_error l j = Some bj ->
      in_segment bi a -> in_segment bj a -> i = j).

Definition increasing (l : list MemBlock) : Prop :=
  StronglySorted Z.lt (map data_ptr l).

(** Two neighbours in the list that are both available. *)
Fixpoint adjacent_free (l : list MemBlock) : bool :=
  match l with
  | a :: (b :: _) as rest =>
      (is_available a && is_available b) || adjacent_free rest
  | _ => false
  end.

Definition sum_sizes (l : list MemBlock) : Z :=
  fold_right (fun b acc => block_size b + acc) 0 l.

(** Every descriptor has a positive size. *)
Definition positive_sizes (l : list MemBlock) : Prop :=
  Forall (fun b => 0 < block_size b) l.

(** The invariant kept when no request has size zero. *)
Definition well_formed (w : Pool) : Prop :=
  pool_inv w /\ positive_sizes (pool_head w).

(** The size [current] has after absorbing [frees] one by one. *)
Definition merged_size (start : Z) (frees : list MemBlock) : Z :=
  fold_left (fun acc nb => size_add acc (block_size nb)) frees start.

(** The merging loop stops at [rest]. *)
Definition stops_merge (rest : list MemBlock) : Prop :=
  match rest with
  | [] => True
  | r :: _ => is_available r = false
  end.

(** The pool of [mem_init(100)] with the arena at address 4096. *)
Definition pool100 : Pool :=
  mkPool 4096 [mkBlock 100 true 4096] 100 (memory blank) [].

(** [pool100] after [mem_alloc(30)] and [mem_alloc(20)], with a byte
    written into the first block. *)
Definition pool_in_use : Pool :=
  set_memory (fun a => if a =? 4097 then x2a else x00)
             (run [Alloc true 30; Alloc true 20] pool100).

(** ** Accounting and liveness *)

(** The bytes of the arena that are handed out. *)
Definition used_bytes (l : list MemBlock) : Z :=
  sum_sizes (filter (fun b => negb (is_available b)) l).

(** The operation is not a release or a resize of the address [q]. *)
Definition op_spares (q : Z) (op : Op) : Prop :=
  match op with
  | Alloc _ _ => True
  | Free p => p <> q
  | Resize _ p _ => p <> q
  end.

(** * Properties *)

(** ** Record bookkeeping *)

Lemma log_nil (w : Pool) : log [] w = w.
Proof.
  destruct w as [s h t m e]. unfold log. simpl. now rewrite app_nil_r.
Qed.

Lemma set_head_same (w : Pool) : set_head (pool_head w) w = w.
Proof. now destruct w. Qed.

Lemma size_add_small (a b : Z) :
  0 <= a + b < SIZE_MODULUS -> size_add a b = a + b.
Proof. intros H. unfold size_add. now apply Z.mod_small. Qed.

(** ** Tilings *)

Section Tiles.

Lemma tiles_le (l : list MemBlock) :
  forall s e, tiles s l e -> s <= e.
Proof.
  induction l as [|b l IH]; simpl; intros s e H.
  - lia.
  - destruct H as (_ & Hb & Hr). specialize (IH _ _ Hr). lia.
Qed.

Lemma tiles_app (l1 l2 : list MemBlock) :
  forall s e,
    tiles s (l1 ++ l2) e <->
    tiles s l1 (s + sum_sizes l1) /\ tiles (s + sum_sizes l1) l2 e.
Proof.
  induction l1 as [|b l1 IH]; simpl; intros s e.
  - rewrite Z.add_0_r. tauto.
  - rewrite IH. rewrite Z.add_assoc. tauto.
Qed.

Lemma tiles_sum (l : list MemBlock) :
  forall s e, tiles s l e -> e = s + sum_sizes l.
Proof.
  induction l as [|b l IH]; simpl; intros s e H.
  - lia.
  - destruct H as (_ & _ & Hr). apply IH in Hr. lia.
Qed.

Lemma tiles_in_range (l : list MemBlock) :
  forall s e b,
    tiles s l e -> In b l ->
    s <= data_ptr b /\ data_ptr b + block_size b <= e.
Proof.
  induction l as [|x l IH]; simpl; intros s e b H Hin.
  - contradiction.
  - destruct H as (Hp & Hx & Hr). destruct Hin as [->|Hin].
    + apply tiles_le in Hr. lia.
    + destruct (IH _ _ _ Hr Hin). lia.
Qed.

Lemma find_block_in (ptr : Z) (l : list MemBlock) :
  forall b, find_block ptr l = Some b -> In b l /\ data_ptr b = ptr.
Proof.
  induction l as [|x l IH]; simpl; intros b H.
  - discriminate.
  - destruct (data_ptr x =? ptr) eqn:E.
    + injection H as <-. apply Z.eqb_eq in E. auto.
    + destruct (IH _ H). auto.
Qed.

(** The split keeps the tiling: the remainder starts where the shrunk
    descriptor ends. *)
Lemma alloc_walk_tiles (ok : bool) (size : Z) (l : list MemBlock) :
  forall s e,
    0 <= size -> tiles s l e ->
    tiles s (snd (fst (alloc_walk ok size l))) e.
Proof.
  induction l as [|b l IH]; simpl; intros s e Hn H.
  - exact H.
  - destruct H as (Hp & Hb & Hr).
    unfold fits.
    destruct (is_available b); simpl.
    + destruct (size <=? block_size b) eqn:Hle.
      * destruct (size <? block_size b) eqn:Hlt.
        -- destruct ok; simpl.
           ++ apply Z.ltb_lt in Hlt.
              repeat split; try lia.
              now replace (s + size + (block_size b - size))
                with (s + block_size b) by lia.
           ++ auto.
        -- simpl. auto.
      * specialize (IH _ _ Hn Hr).
        destruct (alloc_walk ok size l) as [[p l'] ms]. simpl in *. auto.
    + specialize (IH _ _ Hn Hr).
      destruct (alloc_walk ok size l) as [[p l'] ms]. simpl in *. auto.
Qed.

Lemma alloc_walk_positive (ok : bool) (size : Z) (l : list MemBlock) :
  0 < size -> positive_sizes l ->
  positive_sizes (snd (fst (alloc_walk ok size l))).
Proof.
  unfold positive_sizes. intros Hn.
  induction l as [|b l IH]; simpl; intros H.
  - constructor.
  - inversion H as [|? ? Hb Hl]; subst.
    destruct (fits size b).
    + destruct (size <? block_size b) eqn:Hlt.
      * destruct ok; simpl; auto.
        apply Z.ltb_lt in Hlt.
        repeat constructor; simpl; auto; lia.
      * simpl. constructor; auto.
    + specialize (IH Hl).
      destruct (alloc_walk ok size l) as [[p l'] ms]. simpl in *.
      constructor; auto.
Qed.

(** The merge keeps the tiling: the merged size is the span of the
    descriptors it replaces. *)
Lemma coalesce_tiles (next : list MemBlock) :
  forall cur s e,
    e - s < SIZE_MODULUS ->
    tiles s (cur :: next) e -> tiles s (coalesce cur next) e.
Proof.
  induction next as [|nb next IH]; simpl; intros cur s e Hb H.
  - exact H.
  - destruct (is_available nb); [|exact H].
    destruct H as (Hp & Hc & Hq & Hn & Hr).
    apply IH; [exact Hb|]. simpl.
    pose proof (tiles_le _ _ _ Hr) as Hle.
    rewrite size_add_small by lia.
    repeat split; try lia.
    now rewrite Z.add_assoc.
Qed.

Lemma coalesce_positive (next : list MemBlock) :
  forall cur s e,
    e - s < SIZE_MODULUS -> tiles s (cur :: next) e ->
    positive_sizes (cur :: next) -> positive_sizes (coalesce cur next).
Proof.
  unfold positive_sizes.
  induction next as [|nb next IH]; simpl; intros cur s e Hb H HP.
  - exact HP.
  - destruct (is_available nb); [|exact HP].
    destruct H as (Hp & Hc & Hq & Hn & Hr).
    inversion HP as [|? ? Hc0 HP']; subst.
    inversion HP' as [|? ? Hn0 HP'']; subst.
    pose proof (tiles_le _ _ _ Hr) as Hle.
    apply (IH _ (data_ptr cur) e); [exact Hb| |].
    + simpl. rewrite size_add_small by lia.
      repeat split; try lia. now rewrite Z.add_assoc.
    + constructor; [|exact HP'']. simpl.
      rewrite size_add_small by lia. lia.
Qed.

Lemma free_walk_tiles (ptr : Z) (l : list MemBlock) :
  forall s e,
    e - s < SIZE_MODULUS -> tiles s l e ->
    tiles s (fst (free_walk ptr l)) e.
Proof.
  induction l as [|b l IH]; simpl; intros s e Hb H.
  - exact H.
  - destruct (data_ptr b =? ptr).
    + destruct (is_available b); simpl; [exact H|].
      apply coalesce_tiles; [exact Hb|]. exact H.
    + destruct H as (Hp & Hc & Hr).
      assert (Hb' : e - (s + block_size b) < SIZE_MODULUS) by lia.
      specialize (IH _ _ Hb' Hr).
      destruct (free_walk ptr l) as [l' ms]. simpl in *. auto.
Qed.

Lemma free_walk_positive (ptr : Z) (l : list MemBlock) :
  forall s e,
    e - s < SIZE_MODULUS -> tiles s l e ->
    positive_sizes l -> positive_sizes (fst (free_walk ptr l)).
Proof.
  induction l as [|b l IH]; simpl; intros s e Hb H HP.
  - exact HP.
  - destruct (data_ptr b =? ptr).
    + destruct (is_available b); simpl; [exact HP|].
      apply (coalesce_positive _ _ s e); auto.
      inversion HP; subst. constructor; auto.
    + destruct H as (Hp & Hc & Hr).
      assert (Hb' : e - (s + block_size b) < SIZE_MODULUS) by lia.
      inversion HP as [|? ? Hb0 HP']; subst.
      specialize (IH _ _ Hb' Hr HP').
      destruct (free_walk ptr l) as [l' ms]. simpl in *.
      constructor; auto.
Qed.

End Tiles.

(** ** The invariants are kept by the public operations *)

Section Preservation.

Lemma mem_alloc_head (ok : bool) (size : Z) (w : Pool) :
  pool_head (snd (mem_alloc ok size w))
  = snd (fst (alloc_walk ok size (pool_head w))).
Proof.
  unfold mem_alloc.
  now destruct (alloc_walk ok size (pool_head w)) as [[p l] ms].
Qed.

Lemma mem_alloc_fst (ok : bool) (size : Z) (w : Pool) :
  fst (mem_alloc ok size w) = fst (fst (alloc_walk ok size (pool_head w))).
Proof.
  unfold mem_alloc.
  now destruct (alloc_walk ok size (pool_head w)) as [[p l] ms].
Qed.

Lemma mem_alloc_frame (ok : bool) (size : Z) (w : Pool) :
  pool_start (snd (mem_alloc ok size w)) = pool_start w /\
  total_pool_size (snd (mem_alloc ok size w)) = total_pool_size w /\
  memory (snd (mem_alloc ok size w)) = memory w.
Proof.
  unfold mem_alloc.
  now destruct (alloc_walk ok size (pool_head w)) as [[p l] ms].
Qed.

Lemma mem_free_head (ptr : Z) (w : Pool) :
  pool_head (mem_free ptr w)
  = if ptr =? NULL then pool_head w
    else fst (free_walk ptr (pool_head w)).
Proof.
  unfold mem_free. destruct (ptr =? NULL); [reflexivity|].
  now destruct (free_walk ptr (pool_head w)) as [l ms].
Qed.

Lemma mem_free_frame (ptr : Z) (w : Pool) :
  pool_start (mem_free ptr w) = pool_start w /\
  total_pool_size (mem_free ptr w) = total_pool_size w /\
  memory (mem_free ptr w) = memory w.
Proof.
  unfold mem_free. destruct (ptr =? NULL); [now simpl|].
  now destruct (free_walk ptr (pool_head w)) as [l ms].
Qed.

Lemma mem_alloc_inv (ok : bool) (size : Z) (w : Pool) :
  0 <= size -> pool_inv w -> pool_inv (snd (mem_alloc ok size w)).
Proof.
  intros Hn (Hs & Ht & Htl). unfold pool_inv.
  destruct (mem_alloc_frame ok size w) as (-> & -> & _).
  rewrite mem_alloc_head. repeat split; try lia.
  now apply alloc_walk_tiles.
Qed.

Lemma mem_free_inv (ptr : Z) (w : Pool) :
  pool_inv w -> pool_inv (mem_free ptr w).
Proof.
  intros (Hs & Ht & Htl). unfold pool_inv.
  destruct (mem_free_frame ptr w) as (-> & -> & _).
  rewrite mem_free_head. repeat split; try lia.
  destruct (ptr =? NULL); [exact Htl|].
  apply free_walk_tiles; [lia|exact Htl].
Qed.

Lemma memcpy_inv (dst src n : Z) (w : Pool) :
  pool_inv w -> pool_inv (memcpy dst src n w).
Proof. intros H. exact H. Qed.

Lemma mem_resize_inv (ok : bool) (ptr size : Z) (w : Pool) :
  0 <= size -> pool_inv w -> pool_inv (snd (mem_resize ok ptr size w)).
Proof.
  intros Hn H. unfold mem_resize.
  destruct (ptr =? NULL); [now apply mem_alloc_inv|].
  destruct (find_block ptr (pool_head w)) as [block|]; [|exact H].
  destruct (size <=? block_size block); [exact H|].
  pose proof (mem_alloc_inv ok size w Hn H) as H1.
  destruct (mem_alloc ok size w) as [new_ptr w1]. simpl in H1.
  destruct (new_ptr =? NULL); simpl; [exact H1|].
  apply mem_free_inv. now apply memcpy_inv.
Qed.

Lemma mem_alloc_wf (ok : bool) (size : Z) (w : Pool) :
  0 < size -> well_formed w -> well_formed (snd (mem_alloc ok size w)).
Proof.
  intros Hn (H & HP). split; [apply mem_alloc_inv; [lia|exact H]|].
  rewrite mem_alloc_head. now apply alloc_walk_positive.
Qed.

Lemma mem_free_wf (ptr : Z) (w : Pool) :
  well_formed w -> well_formed (mem_free ptr w).
Proof.
  intros (H & HP). split; [now apply mem_free_inv|].
  rewrite mem_free_head. destruct (ptr =? NULL); [exact HP|].
  destruct H as (Hs & Ht & Htl).
  apply (free_walk_positive _ _ (pool_start w)
                            (pool_start w + total_pool_size w));
    [lia|exact Htl|exact HP].
Qed.

Lemma mem_resize_wf (ok : bool) (ptr size : Z) (w : Pool) :
  (ptr = NULL -> 0 < size) ->
  well_formed w -> well_formed (snd (mem_resize ok ptr size w)).
Proof.
  intros Hn H. unfold mem_resize.
  destruct (ptr =? NULL) eqn:E.
  - apply Z.eqb_eq in E. now apply mem_alloc_wf; auto.
  - destruct (find_block ptr (pool_head w)) as [block|] eqn:F; [|exact H].
    destruct (size <=? block_size block) eqn:L; [exact H|].
    apply Z.leb_gt in L.
    assert (0 <= block_size block) as Hb.
    { apply find_block_in in F. destruct F as (Hin & _).
      destruct (Forall_forall (fun b => 0 < block_size b) (pool_head w))
        as [HF _].
      destruct H as (_ & HP). specialize (HF HP _ Hin). simpl in HF. lia. }
    assert (0 < size) as Hpos by lia.
    pose proof (mem_alloc_wf ok size w Hpos H) as H1.
    destruct (mem_alloc ok size w) as [new_ptr w1]. simpl in H1.
    destruct (new_ptr =? NULL); simpl; [exact H1|].
    apply mem_free_wf. exact H1.
Qed.

Lemma step_inv (w : Pool) (op : Op) :
  op_typed op -> pool_inv w -> pool_inv (step w op).
Proof.
  destruct op as [ok n|p|ok p n]; simpl; intros Ht H.
  - apply mem_alloc_inv; [lia|exact H].
  - now apply mem_free_inv.
  - apply mem_resize_inv; [lia|exact H].
Qed.

Lemma step_wf (w : Pool) (op : Op) :
  op_positive op -> well_formed w -> well_formed (step w op).
Proof.
  destruct op as [ok n|p|ok p n]; simpl; intros Ht H.
  - now apply mem_alloc_wf.
  - now apply mem_free_wf.
  - now apply mem_resize_wf.
Qed.

Lemma run_inv (ops : list Op) :
  forall w, Forall op_typed ops -> pool_inv w -> pool_inv (run ops w).
Proof.
  induction ops as [|op ops IH]; simpl; intros w HF H; [exact H|].
  inversion HF; subst. apply IH; [assumption|]. now apply step_inv.
Qed.

Lemma run_wf (ops : list Op) :
  forall w, Forall op_positive ops -> well_formed w ->
            well_formed (run ops w).
Proof.
  induction ops as [|op ops IH]; simpl; intros w HF H; [exact H|].
  inversion HF; subst. apply IH; [assumption|]. now apply step_wf.
Qed.

Lemma step_frame (w : Pool) (op : Op) :
  pool_start (step w op) = pool_start w /\
  total_pool_size (step w op) = total_pool_size w.
Proof.
  destruct op as [ok n|p|ok p n]; simpl.
  - destruct (mem_alloc_frame ok n w) as (? & ? & _). auto.
  - destruct (mem_free_frame p w) as (? & ? & _). auto.
  - unfold mem_resize. destruct (p =? NULL).
    + destruct (mem_alloc_frame ok n w) as (? & ? & _). auto.
    + destruct (find_block p (pool_head w)) as [block|]; [|now simpl].
      destruct (n <=? block_size block); [now simpl|].
      destruct (mem_alloc_frame ok n w) as (Hs & Ht & _).
      destruct (mem_alloc ok n w) as [new_ptr w1]. simpl in *.
      destruct (new_ptr =? NULL); simpl; [auto|].
      destruct (mem_free_frame p (memcpy new_ptr p (block_size block) w1))
        as (-> & -> & _). simpl. auto.
Qed.

Lemma run_frame (ops : list Op) :
  forall w, pool_start (run ops w) = pool_start w /\
            total_pool_size (run ops w) = total_pool_size w.
Proof.
  induction ops as [|op ops IH]; simpl; intros w; [auto|].
  destruct (IH (step w op)) as (-> & ->). apply step_frame.
Qed.

Lemma mem_init_wf (arena : Z) (meta_ok : bool) (total : Z) (w0 w : Pool) :
  0 <= arena -> 0 < total < SIZE_MODULUS ->
  mem_init arena meta_ok total w0 = Some w ->
  well_formed w /\ pool_start w = arena /\ total_pool_size w = total.
Proof.
  intros Ha Ht. unfold mem_init.
  destruct (arena =? NULL) eqn:E; [discriminate|].
  destruct (negb meta_ok); [discriminate|].
  intros [= <-]. apply Z.eqb_neq in E. unfold NULL in E.
  repeat split; simpl; try lia.
  repeat constructor. simpl. lia.
Qed.

End Preservation.

(** ** From the tiling to the partition the specification words *)

Section Partition.

Lemma tiles_increasing (l : list MemBlock) :
  forall s e, tiles s l e -> positive_sizes l -> increasing l.
Proof.
  unfold increasing, positive_sizes.
  induction l as [|b l IH]; simpl; intros s e H HP.
  - constructor.
  - destruct H as (Hp & Hb & Hr). inversion HP as [|? ? Hb0 HP']; subst.
    constructor; [now apply (IH _ _ Hr)|].
    apply Forall_forall. intros x Hx. apply in_map_iff in Hx.
    destruct Hx as (b' & <- & Hin).
    destruct (tiles_in_range _ _ _ _ Hr Hin). lia.
Qed.

Lemma tiles_covers (l : list MemBlock) :
  forall s e a,
    tiles s l e ->
    (s <= a < e <-> exists b, In b l /\ in_segment b a).
Proof.
  unfold in_segment.
  induction l as [|b l IH]; simpl; intros s e a H.
  - split; [lia|]. intros (b & [] & _).
  - destruct H as (Hp & Hb & Hr). pose proof (tiles_le _ _ _ Hr) as Hle.
    specialize (IH _ _ a Hr). split.
    + intros Ha. destruct (Z_lt_ge_dec a (s + block_size b)) as [Hlt|Hge].
      * exists b. split; [now left|lia].
      * destruct IH as [IH _]. destruct IH as (b' & Hin & Hseg); [lia|].
        exists b'. auto.
    + intros (b' & [<-|Hin] & Hseg); [lia|].
      destruct IH as [_ IH]. assert (s + block_size b <= a < e); [|lia].
      apply IH. eauto.
Qed.

Lemma tiles_disjoint (l : list MemBlock) :
  forall s e i j bi bj a,
    tiles s l e ->
    nth_error l i = Some bi -> nth_error l j = Some bj ->
    in_segment bi a -> in_segment bj a -> i = j.
Proof.
  unfold in_segment.
  induction l as [|b l IH]; intros s e i j bi bj a H Hi Hj Si Sj.
  - destruct i; discriminate.
  - destruct H as (Hp & Hb & Hr).
    destruct i as [|i], j as [|j]; simpl in Hi, Hj.
    + reflexivity.
    + injection Hi as <-. apply nth_error_In in Hj.
      destruct (tiles_in_range _ _ _ _ Hr Hj). lia.
    + injection Hj as <-. apply nth_error_In in Hi.
      destruct (tiles_in_range _ _ _ _ Hr Hi). lia.
    + f_equal. eapply IH; eauto.
Qed.

Lemma tiles_exact_cover (base total : Z) (l : list MemBlock) :
  tiles base l (base + total) -> exact_cover base total l.
Proof.
  intros H. split.
  - intros a. now apply tiles_covers.
  - intros i j bi bj a. now apply (tiles_disjoint l base (base + total)).
Qed.

End Partition.

(** * The claims of the specification *)

(** ** Invariants *)

(** C1, as amended.  In every state reached from a successful
    [mem_init] of a positive size by [mem_alloc], [mem_free] and
    [mem_resize] calls, the descriptor list tiles the arena: the first
    descriptor starts at the arena base, each descriptor starts where its
    predecessor ends (a split puts the remainder at the shrunk
    descriptor's [data_ptr + block_size], a merge gives the survivor the
    span of the descriptors it absorbs), the last one ends at
    [base + total], every arena address lies in the segment of exactly one
    descriptor and no segment holds an address outside the arena.  When
    moreover no request reaches [mem_alloc] with size zero, the
    [data_ptr] values are strictly increasing along the list. *)
Theorem partition_invariant
  (arena : Z) (meta_ok : bool) (total : Z) (w0 w : Pool) (ops : list Op) :
  0 <= arena -> 0 < total < SIZE_MODULUS ->
  mem_init arena meta_ok total w0 = Some w ->
  Forall op_typed ops ->
  tiles arena (pool_head (run ops w)) (arena + total) /\
  exact_cover arena total (pool_head (run ops w)) /\
  (Forall op_positive ops -> increasing (pool_head (run ops w))).
Proof.
  intros Ha Ht Hi Hty.
  destruct (mem_init_wf _ _ _ _ _ Ha Ht Hi) as (Hwf & Hs & Hsz).
  pose proof (run_inv ops w Hty (proj1 Hwf)) as (_ & _ & Htl).
  destruct (run_frame ops w) as (Es & Et).
  rewrite Es, Et, Hs, Hsz in Htl.
  split; [exact Htl|]. split; [now apply tiles_exact_cover|].
  intros Hpos. apply (tiles_increasing _ _ _ Htl).
  exact (proj2 (run_wf ops w Hpos Hwf)).
Qed.

Lemma partition_invariant_witness :
  tiles 4096
        (pool_head (run [Alloc true 30; Alloc true 20; Free 4096] pool100))
        (4096 + 100) /\
  exact_cover 4096 100
        (pool_head (run [Alloc true 30; Alloc true 20; Free 4096] pool100)) /\
  increasing
        (pool_head (run [Alloc true 30; Alloc true 20; Free 4096] pool100)).
Proof.
  destruct (partition_invariant 4096 true 100 blank pool100
              [Alloc true 30; Alloc true 20; Free 4096])
    as (H1 & H2 & H3).
  - lia.
  - unfold SIZE_MODULUS. lia.
  - reflexivity.
  - repeat constructor; unfold SIZE_MODULUS; simpl; lia.
  - split; [exact H1|]. split; [exact H2|]. apply H3.
    repeat constructor; simpl; lia.
Defined.

(** C1, as stated, fails: [mem_alloc(0)] on a fresh pool of 100 bytes
    shrinks the head descriptor to zero bytes and puts the remainder at
    the same address, so two descriptors share one [data_ptr]. *)
Lemma alloc_zero_repeats_data_ptr :
  mem_init 4096 true 100 blank = Some pool100 /\
  Forall op_typed [Alloc true 0] /\
  pool_head (run [Alloc true 0] pool100)
  = [mkBlock 0 false 4096; mkBlock 100 true 4096] /\
  ~ increasing (pool_head (run [Alloc true 0] pool100)).
Proof.
  split; [reflexivity|]. split.
  - repeat constructor; unfold SIZE_MODULUS; simpl; lia.
  - split; [reflexivity|]. unfold increasing. simpl. intros H.
    inversion H as [|? ? _ HF]; subst.
    inversion HF as [|? ? Hlt _]; subst. lia.
Qed.

(** C2 fails on the code.  After [mem_init(100)], [a = mem_alloc(30)],
    [b = mem_alloc(20)], [mem_free(a)], [mem_free(b)], the block [b] has
    absorbed the free tail that follows it but not the free block [a]
    before it: the list is two available descriptors side by side, and a
    request for the 100 bytes of the wholly free pool is refused. *)
Theorem free_keeps_free_predecessor_apart :
  mem_init 4096 true 100 blank = Some pool100 /\
  fst (mem_alloc true 30 pool100) = 4096 /\
  fst (mem_alloc true 20 (run [Alloc true 30] pool100)) = 4126 /\
  pool_head
    (run [Alloc true 30; Alloc true 20; Free 4096; Free 4126] pool100)
  = [mkBlock 30 true 4096; mkBlock 70 true 4126] /\
  stderr
    (run [Alloc true 30; Alloc true 20; Free 4096; Free 4126] pool100)
  = [] /\
  adjacent_free
    (pool_head
       (run [Alloc true 30; Alloc true 20; Free 4096; Free 4126] pool100))
  = true /\
  fst (mem_alloc true 100
         (run [Alloc true 30; Alloc true 20; Free 4096; Free 4126] pool100))
  = NULL.
Proof. repeat split; reflexivity. Qed.

(** ** Allocation *)

(** C3.  [mem_alloc(n)] answers with the [data_ptr] of the first
    descriptor, in list order, that is available and has at least [n]
    bytes, whatever fits after it; the answer is a function of the list
    and of the outcome of the descriptor [malloc].  The one case where a
    fitting descriptor exists and [NULL] comes back is the failed [malloc]
    of a remainder descriptor (C7). *)
Theorem mem_alloc_first_fit (ok : bool) (n : Z) (w : Pool) :
  fst (mem_alloc ok n w) =
  match find (fits n) (pool_head w) with
  | Some b => if (n <? block_size b) && negb ok then NULL else data_ptr b
  | None => NULL
  end.
Proof.
  rewrite mem_alloc_fst.
  induction (pool_head w) as [|b l IH]; simpl; [reflexivity|].
  destruct (fits n b).
  - destruct (n <? block_size b); [destruct ok|]; reflexivity.
  - destruct (alloc_walk ok n l) as [[p l'] ms]. simpl in *. exact IH.
Qed.

Lemma alloc_walk_skip (ok : bool) (n : Z) (pre : list MemBlock) :
  forall rest,
    Forall (fun x => fits n x = false) pre ->
    alloc_walk ok n (pre ++ rest)
    = let '(p, l, ms) := alloc_walk ok n rest in (p, pre ++ l, ms).
Proof.
  induction pre as [|x pre IH]; simpl; intros rest H.
  - now destruct (alloc_walk ok n rest) as [[p l] ms].
  - inversion H as [|? ? Hx Hpre]; subst. rewrite Hx.
    rewrite (IH _ Hpre).
    now destruct (alloc_walk ok n rest) as [[p l] ms].
Qed.

(** C4.  Let [b] be the first fitting descriptor.  If [b] is larger than
    the request and the remainder descriptor can be created, [b] is
    replaced by an in-use descriptor of exactly [n] bytes at the same
    address, immediately followed by a new available descriptor of
    [block_size b - n] bytes at [data_ptr b + n]; if [b] has exactly [n]
    bytes it is only marked in use and the list keeps its length. *)
Theorem mem_alloc_split_or_mark
  (ok : bool) (n : Z) (w : Pool) (pre post : list MemBlock) (b : MemBlock) :
  pool_head w = pre ++ b :: post ->
  Forall (fun x => fits n x = false) pre ->
  fits n b = true ->
  (n < block_size b -> ok = true ->
   mem_alloc ok n w
   = (data_ptr b,
      set_head (pre ++ mkBlock n false (data_ptr b)
                    :: mkBlock (block_size b - n) true (data_ptr b + n)
                    :: post) w)) /\
  (block_size b = n ->
   mem_alloc ok n w
   = (data_ptr b, set_head (pre ++ set_available false b :: post) w) /\
   length (pool_head (snd (mem_alloc ok n w))) = length (pool_head w)).
Proof.
  intros Hl Hpre Hb. unfold mem_alloc. rewrite Hl.
  rewrite (alloc_walk_skip _ _ _ _ Hpre). simpl. rewrite Hb. split.
  - intros Hlt ->. apply Z.ltb_lt in Hlt. rewrite Hlt.
    now rewrite log_nil.
  - intros <-. rewrite Z.ltb_irrefl. rewrite log_nil. split; [reflexivity|].
    simpl. now rewrite !length_app.
Qed.

Lemma mem_alloc_split_or_mark_witness :
  mem_alloc true 30 pool100
  = (4096,
     set_head [mkBlock 30 false 4096; mkBlock 70 true 4126] pool100) /\
  mem_alloc false 100 pool100
  = (4096, set_head [mkBlock 100 false 4096] pool100).
Proof.
  split.
  - apply (proj1 (mem_alloc_split_or_mark true 30 pool100 [] []
                    (mkBlock 100 true 4096) eq_refl (Forall_nil _) eq_refl));
      [reflexivity | reflexivity].
  - apply (proj2 (mem_alloc_split_or_mark false 100 pool100 [] []
                    (mkBlock 100 true 4096) eq_refl (Forall_nil _) eq_refl)).
    reflexivity.
Defined.

(** C7.  A failing [mem_alloc] changes no descriptor.  When nothing fits
    it returns [NULL] and the state is the one before the call; when the
    first fit must be split and the [malloc] of the remainder descriptor
    fails it returns [NULL] as well, the list, the found descriptor
    included, is as before, and only the [perror] line is added. *)
Theorem mem_alloc_failure_is_atomic (ok : bool) (n : Z) (w : Pool) :
  (find (fits n) (pool_head w) = None -> mem_alloc ok n w = (NULL, w)) /\
  (forall b,
      find (fits n) (pool_head w) = Some b ->
      n < block_size b -> ok = false ->
      mem_alloc ok n w = (NULL, log [PerrorNewBlock] w) /\
      pool_head (snd (mem_alloc ok n w)) = pool_head w /\
      find (fits n) (pool_head (snd (mem_alloc ok n w))) = Some b).
Proof.
  assert (Hnone : forall l, find (fits n) l = None ->
                            alloc_walk ok n l = (NULL, l, [])).
  { induction l as [|x l IH]; simpl; [reflexivity|].
    destruct (fits n x); [discriminate|].
    intros H. now rewrite (IH H). }
  assert (Hfail : forall l b, find (fits n) l = Some b ->
                              n < block_size b -> ok = false ->
                              alloc_walk ok n l = (NULL, l, [PerrorNewBlock])).
  { induction l as [|x l IH]; simpl; intros b H Hlt Hok; [discriminate|].
    destruct (fits n x).
    - injection H as ->. apply Z.ltb_lt in Hlt. now rewrite Hlt, Hok.
    - now rewrite (IH _ H Hlt Hok). }
  split.
  - intros H. unfold mem_alloc. rewrite (Hnone _ H).
    now rewrite log_nil, set_head_same.
  - intros b H Hlt Hok.
    assert (E : mem_alloc ok n w = (NULL, log [PerrorNewBlock] w)).
    { unfold mem_alloc. rewrite (Hfail _ _ H Hlt Hok).
      now rewrite set_head_same. }
    rewrite E. simpl. auto.
Qed.

Lemma mem_alloc_failure_is_atomic_witness :
  mem_alloc true 101 pool100 = (NULL, pool100) /\
  mem_alloc false 30 pool100 = (NULL, log [PerrorNewBlock] pool100).
Proof.
  split.
  - apply (proj1 (mem_alloc_failure_is_atomic true 101 pool100)).
    reflexivity.
  - apply (proj2 (mem_alloc_failure_is_atomic false 30 pool100)
                 (mkBlock 100 true 4096));
      reflexivity.
Defined.

(** ** Release *)

Section Release.

Lemma coalesce_run (frees : list MemBlock) :
  forall cur rest,
    Forall (fun x => is_available x = true) frees ->
    stops_merge rest ->
    coalesce cur (frees ++ rest)
    = set_size (merged_size (block_size cur) frees) cur :: rest.
Proof.
  induction frees as [|f frees IH]; simpl; intros cur rest HF Hstop.
  - destruct rest as [|r rest]; simpl.
    + now destruct cur.
    + simpl in Hstop. rewrite Hstop. now destruct cur.
  - inversion HF as [|? ? Hf HF']; subst. rewrite Hf.
    rewrite (IH _ _ HF' Hstop). reflexivity.
Qed.

Lemma merged_size_exact (frees : list MemBlock) :
  forall start,
    0 <= start ->
    Forall (fun x => 0 <= block_size x) frees ->
    start + sum_sizes frees < SIZE_MODULUS ->
    merged_size start frees = start + sum_sizes frees.
Proof.
  unfold merged_size.
  induction frees as [|f frees IH]; simpl; intros start H0 HF Hb.
  - lia.
  - inversion HF as [|? ? Hf HF']; subst.
    assert (0 <= sum_sizes frees) as Hs.
    { clear - HF'. induction HF'; simpl; lia. }
    rewrite size_add_small by lia.
    rewrite IH by (auto; lia). lia.
Qed.

Lemma tiles_nonneg (l : list MemBlock) :
  forall s e, tiles s l e -> Forall (fun x => 0 <= block_size x) l.
Proof.
  induction l as [|b l IH]; simpl; intros s e H; [constructor|].
  destruct H as (_ & Hb & Hr). constructor; eauto.
Qed.

Lemma free_walk_skip (ptr : Z) (pre : list MemBlock) :
  forall rest,
    Forall (fun x => data_ptr x <> ptr) pre ->
    free_walk ptr (pre ++ rest)
    = let '(l, ms) := free_walk ptr rest in (pre ++ l, ms).
Proof.
  induction pre as [|x pre IH]; simpl; intros rest H.
  - now destruct (free_walk ptr rest) as [l ms].
  - inversion H as [|? ? Hx Hpre]; subst.
    apply Z.eqb_neq in Hx. rewrite Hx. rewrite (IH _ Hpre).
    now destruct (free_walk ptr rest) as [l ms].
Qed.

Lemma free_walk_not_found (ptr : Z) (l : list MemBlock) :
  find_block ptr l = None -> free_walk ptr l = (l, [WarnNotFromPool ptr]).
Proof.
  induction l as [|x l IH]; simpl; [reflexivity|].
  destruct (data_ptr x =? ptr); [discriminate|].
  intros H. now rewrite (IH H).
Qed.

Lemma free_walk_already_free (ptr : Z) (l : list MemBlock) (b : MemBlock) :
  find_block ptr l = Some b -> is_available b = true ->
  free_walk ptr l = (l, [WarnAlreadyFree ptr]).
Proof.
  induction l as [|x l IH]; simpl; [discriminate|].
  destruct (data_ptr x =? ptr).
  - intros [= ->] ->. reflexivity.
  - intros H Ha. now rewrite (IH H Ha).
Qed.

Lemma coalesce_head (next : list MemBlock) :
  forall cur, exists n rest,
    coalesce cur next = set_size n cur :: rest.
Proof.
  induction next as [|nb next IH]; simpl; intros cur.
  - exists (block_size cur), []. now destruct cur.
  - destruct (is_available nb).
    + destruct (IH (set_size (size_add (block_size cur) (block_size nb))
                             cur)) as (n & rest & ->).
      exists n, rest. reflexivity.
    + exists (block_size cur), (nb :: next). now destruct cur.
Qed.

(** What the merging loop does establish: the survivor is followed by
    the end of the list or by a descriptor in use.  Its predecessor is
    never looked at. *)
Lemma coalesce_successor_in_use (next : list MemBlock) :
  forall cur, exists n rest,
    coalesce cur next = set_size n cur :: rest /\ stops_merge rest.
Proof.
  induction next as [|nb next IH]; simpl; intros cur.
  - exists (block_size cur), []. split; [now destruct cur|exact I].
  - destruct (is_available nb) eqn:A.
    + destruct (IH (set_size (size_add (block_size cur) (block_size nb))
                             cur)) as (n & rest & -> & Hstop).
      exists n, rest. split; [reflexivity|exact Hstop].
    + exists (block_size cur), (nb :: next).
      split; [now destruct cur|exact A].
Qed.

(** Whatever [mem_free] does, the first descriptor at [ptr], if there
    is one, is available afterwards. *)
Lemma free_walk_marks_free (ptr : Z) (l : list MemBlock) (b : MemBlock) :
  find_block ptr l = Some b ->
  exists b', find_block ptr (fst (free_walk ptr l)) = Some b' /\
             is_available b' = true.
Proof.
  induction l as [|x l IH]; simpl; [discriminate|].
  destruct (data_ptr x =? ptr) eqn:E.
  - intros [= ->]. destruct (is_available b) eqn:A; simpl.
    + rewrite E. eauto.
    + destruct (coalesce_head l (set_available true b)) as (n & rest & ->).
      simpl. rewrite E. eauto.
  - intros H. destruct (IH H) as (b' & Hf & Ha).
    destruct (free_walk ptr l) as [l' ms]. simpl in *. rewrite E. eauto.
Qed.

End Release.

(** C5.  When the first descriptor at [ptr] is in use, [mem_free(ptr)]
    marks it available and merges into it the whole run [frees] of
    available descriptors that follows: the survivor has the size of [b]
    plus the sizes of all of [frees], their records are gone from the
    list, and what comes next is the end of the list or an in-use
    descriptor.  Nothing is printed. *)
Theorem mem_free_coalesces_forward
  (ptr : Z) (w : Pool) (pre frees rest : list MemBlock) (b : MemBlock) :
  pool_inv w ->
  ptr <> NULL ->
  pool_head w = pre ++ b :: frees ++ rest ->
  Forall (fun x => data_ptr x <> ptr) pre ->
  data_ptr b = ptr ->
  is_available b = false ->
  Forall (fun x => is_available x = true) frees ->
  stops_merge rest ->
  mem_free ptr w
  = set_head (pre ++ mkBlock (block_size b + sum_sizes frees) true ptr
                  :: rest) w.
Proof.
  intros (Hs & Ht & Htl) Hp Hl Hpre Hb Ha HF Hstop.
  unfold mem_free. apply Z.eqb_neq in Hp. rewrite Hp.
  rewrite Hl in *. rewrite (free_walk_skip _ _ _ Hpre). simpl.
  apply Z.eqb_eq in Hb. rewrite Hb, Ha. apply Z.eqb_eq in Hb.
  rewrite (coalesce_run _ _ _ HF Hstop). rewrite log_nil. simpl.
  apply tiles_app in Htl. destruct Htl as (Hpt & Hbt).
  pose proof (tiles_le _ _ _ Hpt) as Hle1.
  simpl in Hbt. destruct Hbt as (_ & Hb0 & Hft).
  apply tiles_app in Hft. destruct Hft as (Hft & Hrt).
  pose proof (tiles_le _ _ _ Hrt) as Hle2.
  rewrite merged_size_exact;
    [ unfold set_size; simpl; now rewrite Hb
    | exact Hb0
    | exact (tiles_nonneg _ _ _ Hft)
    | lia ].
Qed.

Lemma mem_free_coalesces_forward_witness :
  mem_free 4126
    (mkPool 4096 [mkBlock 30 false 4096; mkBlock 20 false 4126;
                  mkBlock 10 true 4146; mkBlock 15 true 4156;
                  mkBlock 25 false 4171] 100 (memory blank) [])
  = mkPool 4096 [mkBlock 30 false 4096; mkBlock 45 true 4126;
                 mkBlock 25 false 4171] 100 (memory blank) [].
Proof.
  apply (mem_free_coalesces_forward 4126
           (mkPool 4096 [mkBlock 30 false 4096; mkBlock 20 false 4126;
                         mkBlock 10 true 4146; mkBlock 15 true 4156;
                         mkBlock 25 false 4171] 100 (memory blank) [])
           [mkBlock 30 false 4096]
           [mkBlock 10 true 4146; mkBlock 15 true 4156]
           [mkBlock 25 false 4171]
           (mkBlock 20 false 4126)).
  - unfold pool_inv, SIZE_MODULUS. simpl. lia.
  - unfold NULL. lia.
  - reflexivity.
  - repeat constructor. simpl. lia.
  - reflexivity.
  - reflexivity.
  - repeat constructor.
  - reflexivity.
Defined.

(** C6.  [mem_free] with a null pointer, with an address that is the
    [data_ptr] of no descriptor, or with the address of a descriptor that
    is already available prints its warning and changes nothing else: the
    state afterwards is the state before with one more line on [stderr].
    Releasing an in-use block twice makes the second call such a no-op,
    so that the partition of a well-formed pool is still in place. *)
Theorem mem_free_misuse_is_inert (ptr : Z) (w : Pool) :
  (ptr = NULL -> mem_free ptr w = log [WarnFreeNull] w) /\
  (ptr <> NULL -> find_block ptr (pool_head w) = None ->
   mem_free ptr w = log [WarnNotFromPool ptr] w) /\
  (ptr <> NULL ->
   forall b, find_block ptr (pool_head w) = Some b ->
             is_available b = true ->
             mem_free ptr w = log [WarnAlreadyFree ptr] w) /\
  (ptr <> NULL ->
   forall b, find_block ptr (pool_head w) = Some b ->
             is_available b = false ->
             mem_free ptr (mem_free ptr w)
             = log [WarnAlreadyFree ptr] (mem_free ptr w) /\
             (well_formed w ->
              let w2 := mem_free ptr (mem_free ptr w) in
              pool_head w2 = pool_head (mem_free ptr w) /\
              well_formed w2 /\
              increasing (pool_head w2) /\
              exact_cover (pool_start w) (total_pool_size w)
                          (pool_head w2))).
Proof.
  assert (Hwarn : forall w' b,
             ptr <> NULL -> find_block ptr (pool_head w') = Some b ->
             is_available b = true ->
             mem_free ptr w' = log [WarnAlreadyFree ptr] w').
  { intros w' b Hp Hf Ha. unfold mem_free.
    apply Z.eqb_neq in Hp. rewrite Hp.
    rewrite (free_walk_already_free _ _ _ Hf Ha).
    now rewrite set_head_same. }
  split; [|split; [|split]].
  - intros ->. reflexivity.
  - intros Hp Hf. unfold mem_free. apply Z.eqb_neq in Hp. rewrite Hp.
    rewrite (free_walk_not_found _ _ Hf). now rewrite set_head_same.
  - intros Hp b Hf Ha. exact (Hwarn w b Hp Hf Ha).
  - intros Hp b Hf Ha.
    destruct (free_walk_marks_free _ _ _ Hf) as (b' & Hf' & Ha').
    assert (Hf1 : find_block ptr (pool_head (mem_free ptr w)) = Some b').
    { rewrite mem_free_head. pose proof Hp as Hp'.
      apply Z.eqb_neq in Hp'. now rewrite Hp'. }
    pose proof (Hwarn (mem_free ptr w) b' Hp Hf1 Ha') as E.
    split; [exact E|]. intros Hwf. simpl. rewrite E.
    pose proof (mem_free_wf ptr w Hwf) as Hwf1.
    destruct (mem_free_frame ptr w) as (Es & Et & _).
    split; [reflexivity|]. split; [exact Hwf1|].
    destruct Hwf1 as ((_ & _ & Htl) & HP).
    simpl. rewrite Es, Et in Htl.
    split; [exact (tiles_increasing _ _ _ Htl HP)|].
    now apply tiles_exact_cover.
Qed.

Lemma mem_free_misuse_is_inert_witness :
  mem_free NULL pool100 = log [WarnFreeNull] pool100 /\
  mem_free 5000 pool100 = log [WarnNotFromPool 5000] pool100 /\
  mem_free 4096 pool100 = log [WarnAlreadyFree 4096] pool100 /\
  mem_free 4096 (mem_free 4096 (run [Alloc true 30] pool100))
  = log [WarnAlreadyFree 4096] (mem_free 4096 (run [Alloc true 30] pool100)) /\
  increasing
    (pool_head (mem_free 4096 (mem_free 4096 (run [Alloc true 30] pool100)))).
Proof.
  assert (N1 : 5000 <> NULL) by (unfold NULL; lia).
  assert (N2 : 4096 <> NULL) by (unfold NULL; lia).
  split; [|split; [|split]].
  - apply (proj1 (mem_free_misuse_is_inert NULL pool100)). reflexivity.
  - apply (proj1 (proj2 (mem_free_misuse_is_inert 5000 pool100)));
      [exact N1|reflexivity].
  - apply (proj1 (proj2 (proj2 (mem_free_misuse_is_inert 4096 pool100)))
                 N2 (mkBlock 100 true 4096));
      reflexivity.
  - destruct (proj2 (proj2 (proj2 (mem_free_misuse_is_inert 4096
                       (run [Alloc true 30] pool100))))
                    N2 (mkBlock 30 false 4096) eq_refl eq_refl) as (E & H).
    split; [exact E|].
    apply H. unfold well_formed, pool_inv, positive_sizes, SIZE_MODULUS.
    simpl. repeat split; try lia. repeat constructor; simpl; lia.
Defined.

(** ** Resize *)

Section Resize.

Lemma copy_bytes_outside (n : nat) :
  forall dst src m a,
    ~ (dst <= a < dst + Z.of_nat n) -> copy_bytes n dst src m a = m a.
Proof.
  induction n as [|k IH]; intros dst src m a Ha; [reflexivity|].
  cbn [copy_bytes]. rewrite IH by lia.
  destruct (a =? dst) eqn:E; [|reflexivity].
  apply Z.eqb_eq in E. lia.
Qed.

(** On regions that do not meet, the loop delivers the source bytes. *)
Lemma copy_bytes_inside (n : nat) :
  forall dst src m i,
    dst + Z.of_nat n <= src \/ src + Z.of_nat n <= dst ->
    0 <= i < Z.of_nat n ->
    copy_bytes n dst src m (dst + i) = m (src + i).
Proof.
  induction n as [|k IH]; intros dst src m i Hd Hi; [simpl in Hi; lia|].
  cbn [copy_bytes].
  destruct (Z.eq_dec i 0) as [->|Hne].
  - rewrite copy_bytes_outside by lia.
    rewrite !Z.add_0_r. now rewrite Z.eqb_refl.
  - replace (dst + i) with (dst + 1 + (i - 1)) by lia.
    rewrite IH by lia.
    replace (src + 1 + (i - 1)) with (src + i) by lia.
    destruct (src + i =? dst) eqn:E; [|reflexivity].
    apply Z.eqb_eq in E. lia.
Qed.

Lemma fits_le (n : Z) (b : MemBlock) :
  fits n b = true -> is_available b = true /\ n <= block_size b.
Proof.
  unfold fits. intros H. apply andb_prop in H. destruct H as (Ha & Hle).
  apply Z.leb_le in Hle. auto.
Qed.

(** A pointer handed out lies, with its [n] bytes, inside the tiling. *)
Lemma alloc_walk_range (ok : bool) (n : Z) (l : list MemBlock) :
  forall s e,
    tiles s l e -> fst (fst (alloc_walk ok n l)) <> NULL ->
    s <= fst (fst (alloc_walk ok n l)) /\
    fst (fst (alloc_walk ok n l)) + n <= e.
Proof.
  induction l as [|b l IH]; simpl; intros s e H Hp.
  - contradiction.
  - destruct H as (Hs & Hb & Hr). pose proof (tiles_le _ _ _ Hr) as Hle.
    destruct (fits n b) eqn:F.
    + apply fits_le in F. destruct F as (_ & Hn).
      destruct (n <? block_size b); [destruct ok|]; simpl in *;
        try contradiction; lia.
    + specialize (IH _ _ Hr).
      destruct (alloc_walk ok n l) as [[p l'] ms]. simpl in *.
      specialize (IH Hp). lia.
Qed.

(** In a pool whose arena is not at address zero, [NULL] from
    [mem_alloc] means that no descriptor was touched. *)
Lemma alloc_walk_null (ok : bool) (n : Z) (l : list MemBlock) :
  forall s e,
    0 < s -> tiles s l e ->
    fst (fst (alloc_walk ok n l)) = NULL ->
    snd (fst (alloc_walk ok n l)) = l.
Proof.
  induction l as [|b l IH]; simpl; intros s e Hs H Hp; [reflexivity|].
  destruct H as (Hd & Hb & Hr).
  destruct (fits n b) eqn:F.
  - destruct (n <? block_size b); [destruct ok|]; simpl in *;
      try reflexivity; unfold NULL in Hp; lia.
  - assert (0 < s + block_size b) as Hs' by lia.
    specialize (IH _ _ Hs' Hr).
    destruct (alloc_walk ok n l) as [[p l'] ms]. simpl in *.
    now rewrite (IH Hp).
Qed.

(** [mem_alloc] leaves a descriptor that does not fit where the search
    of [mem_resize] found it. *)
Lemma alloc_walk_keeps_block (ok : bool) (n ptr : Z) (l : list MemBlock) :
  forall s e block,
    tiles s l e -> find_block ptr l = Some block ->
    fits n block = false ->
    find_block ptr (snd (fst (alloc_walk ok n l))) = Some block.
Proof.
  induction l as [|x l IH]; simpl; intros s e block H Hf Hnf.
  - discriminate.
  - destruct H as (Hs & Hb & Hr).
    destruct (fits n x) eqn:F.
    + destruct (data_ptr x =? ptr) eqn:E.
      { injection Hf as ->. congruence. }
      destruct (find_block_in _ _ _ Hf) as (Hin & Hptr).
      destruct (tiles_in_range _ _ _ _ Hr Hin) as (Hlo & _).
      destruct (n <? block_size x) eqn:Hlt; [destruct ok|]; simpl.
      * rewrite E. apply Z.ltb_lt in Hlt.
        destruct (data_ptr x + n =? ptr) eqn:E2; [|exact Hf].
        apply Z.eqb_eq in E2. lia.
      * now rewrite E.
      * now rewrite E.
    + specialize (IH (s + block_size x) e block Hr).
      destruct (alloc_walk ok n l) as [[p l'] ms]. simpl in *.
      destruct (data_ptr x =? ptr); [exact Hf|]. now apply IH.
Qed.

(** The block handed out and the block being resized do not meet. *)
Lemma alloc_walk_disjoint (ok : bool) (n ptr : Z) (l : list MemBlock) :
  forall s e block,
    tiles s l e -> find_block ptr l = Some block ->
    block_size block < n ->
    fst (fst (alloc_walk ok n l)) <> NULL ->
    fst (fst (alloc_walk ok n l)) + n <= ptr \/
    ptr + block_size block <= fst (fst (alloc_walk ok n l)).
Proof.
  induction l as [|x l IH]; simpl; intros s e block H Hf Hlt Hp.
  - discriminate.
  - destruct H as (Hs & Hb & Hr).
    destruct (fits n x) eqn:F.
    + destruct (fits_le _ _ F) as (_ & Hn).
      destruct (data_ptr x =? ptr) eqn:E.
      { injection Hf as ->. lia. }
      destruct (find_block_in _ _ _ Hf) as (Hin & Hptr).
      destruct (tiles_in_range _ _ _ _ Hr Hin) as (Hlo & _).
      destruct (n <? block_size x); [destruct ok|]; simpl in *;
        try contradiction; left; lia.
    + pose proof (alloc_walk_range ok n l _ _ Hr) as Hrange.
      specialize (IH (s + block_size x) e block Hr).
      destruct (alloc_walk ok n l) as [[p l'] ms]. simpl in *.
      destruct (data_ptr x =? ptr) eqn:E.
      * injection Hf as ->. apply Z.eqb_eq in E.
        specialize (Hrange Hp). right. lia.
      * now apply IH.
Qed.

End Resize.

(** C8.  [mem_resize(ptr, size)] on a descriptor with fewer than [size]
    bytes returns what [mem_alloc(size)] returns.  If that is [NULL], the
    descriptor list and the memory are as before the call and [ptr] still
    names the same descriptor.  Otherwise the state is the one after
    [mem_alloc], then a [memcpy] of [block_size block] bytes (the old
    length, not [size]) from [ptr] to the new address, then
    [mem_free(ptr)]: the first [block_size block] bytes at the new address
    are the bytes that were at [ptr], no byte outside that range of the
    new block has changed, and the descriptor at [ptr] is available. *)
Theorem mem_resize_grows_by_copy
  (ok : bool) (ptr size : Z) (w : Pool) (block : MemBlock) :
  pool_inv w ->
  ptr <> NULL ->
  find_block ptr (pool_head w) = Some block ->
  block_size block < size ->
  fst (mem_resize ok ptr size w) = fst (mem_alloc ok size w) /\
  (fst (mem_alloc ok size w) = NULL ->
   pool_head (snd (mem_resize ok ptr size w)) = pool_head w /\
   memory (snd (mem_resize ok ptr size w)) = memory w /\
   find_block ptr (pool_head (snd (mem_resize ok ptr size w))) = Some block) /\
  (fst (mem_alloc ok size w) <> NULL ->
   snd (mem_resize ok ptr size w)
   = mem_free ptr (memcpy (fst (mem_alloc ok size w)) ptr (block_size block)
                          (snd (mem_alloc ok size w))) /\
   (forall i, 0 <= i < block_size block ->
              memory (snd (mem_resize ok ptr size w))
                     (fst (mem_alloc ok size w) + i)
              = memory w (ptr + i)) /\
   (forall a, ~ (fst (mem_alloc ok size w) <= a
                 < fst (mem_alloc ok size w) + block_size block) ->
              memory (snd (mem_resize ok ptr size w)) a = memory w a) /\
   (exists b', find_block ptr (pool_head (snd (mem_resize ok ptr size w)))
               = Some b' /\ is_available b' = true)).
Proof.
  intros (Hs & Ht & Htl) Hp Hf Hlt.
  pose proof (mem_alloc_fst ok size w) as Efst.
  pose proof (mem_alloc_head ok size w) as Ehead.
  destruct (mem_alloc_frame ok size w) as (_ & _ & Emem).
  pose proof (alloc_walk_null ok size _ _ _ Hs Htl) as Hnull.
  pose proof (alloc_walk_disjoint ok size ptr _ _ _ block Htl Hf Hlt) as Hdis.
  assert (Hnf : fits size block = false).
  { unfold fits. apply Z.leb_gt in Hlt. rewrite Hlt. apply andb_false_r. }
  pose proof (alloc_walk_keeps_block ok size ptr _ _ _ block Htl Hf Hnf)
    as Hkeep.
  assert (Hb0 : 0 <= block_size block).
  { destruct (find_block_in _ _ _ Hf) as (Hin & _).
    pose proof (tiles_nonneg _ _ _ Htl) as HF.
    rewrite Forall_forall in HF. exact (HF _ Hin). }
  rewrite <- Efst in Hnull, Hdis. rewrite <- Ehead in Hnull, Hkeep.
  unfold mem_resize.
  pose proof Hp as Hp'. apply Z.eqb_neq in Hp'. rewrite Hp', Hf.
  pose proof Hlt as Hlt'. apply Z.leb_gt in Hlt'. rewrite Hlt'.
  destruct (mem_alloc ok size w) as [new_ptr w1]. simpl in *.
  destruct (new_ptr =? NULL) eqn:E; simpl.
  - apply Z.eqb_eq in E. split; [reflexivity|]. split.
    + intros _. rewrite (Hnull E). rewrite (Hnull E) in Hkeep. auto.
    + intros Hne. contradiction.
  - apply Z.eqb_neq in E. split; [reflexivity|]. split.
    + intros Hn. contradiction.
    + intros _. split; [reflexivity|].
      destruct (mem_free_frame ptr (memcpy new_ptr ptr (block_size block) w1))
        as (_ & _ & ->).
      simpl. rewrite Emem. split; [|split].
      * intros i Hi. apply copy_bytes_inside.
        -- specialize (Hdis E). rewrite Z2Nat.id by exact Hb0. lia.
        -- rewrite Z2Nat.id by exact Hb0. exact Hi.
      * intros a Ha. apply copy_bytes_outside.
        rewrite Z2Nat.id by exact Hb0. exact Ha.
      * rewrite mem_free_head. rewrite Hp'. simpl.
        exact (free_walk_marks_free _ _ _ Hkeep).
Qed.

Lemma mem_resize_grows_by_copy_witness :
  fst (mem_resize true 4096 40 pool_in_use) = 4146 /\
  memory (snd (mem_resize true 4096 40 pool_in_use)) 4147 = x2a /\
  fst (mem_resize true 4096 60 pool_in_use) = NULL /\
  pool_head (snd (mem_resize true 4096 60 pool_in_use))
  = pool_head pool_in_use.
Proof.
  assert (Hinv : pool_inv pool_in_use).
  { unfold pool_inv, SIZE_MODULUS. simpl. lia. }
  assert (Hp : 4096 <> NULL) by (unfold NULL; lia).
  destruct (mem_resize_grows_by_copy true 4096 40 pool_in_use
              (mkBlock 30 false 4096) Hinv Hp eq_refl eq_refl)
    as (E1 & _ & Hgrow).
  destruct (mem_resize_grows_by_copy true 4096 60 pool_in_use
              (mkBlock 30 false 4096) Hinv Hp eq_refl eq_refl)
    as (E2 & Hfail & _).
  split; [exact E1|]. split.
  - assert (Hne : fst (mem_alloc true 40 pool_in_use) <> NULL)
      by (unfold NULL; simpl; lia).
    destruct (Hgrow Hne) as (_ & Hcopy & _).
    assert (Hi : 0 <= 1 < block_size (mkBlock 30 false 4096))
      by (simpl; lia).
    exact (Hcopy 1 Hi).
  - split; [exact E2|]. exact (proj1 (Hfail eq_refl)).
Defined.

(** C9.  [mem_resize] with a null pointer is [mem_alloc]: same answer,
    same state.  With the address of a descriptor that already has
    [size] bytes or more it returns the address and the state, memory
    included, is untouched.  With an address that is the [data_ptr] of no
    descriptor it prints its warning, returns [NULL] and changes nothing
    else. *)
Theorem mem_resize_simple_cases (ok : bool) (ptr size : Z) (w : Pool) :
  (ptr = NULL -> mem_resize ok ptr size w = mem_alloc ok size w) /\
  (ptr <> NULL ->
   forall block, find_block ptr (pool_head w) = Some block ->
                 size <= block_size block ->
                 mem_resize ok ptr size w = (ptr, w)) /\
  (ptr <> NULL -> find_block ptr (pool_head w) = None ->
   mem_resize ok ptr size w = (NULL, log [WarnResizeNotFound ptr] w)).
Proof.
  unfold mem_resize. split; [|split].
  - intros ->. reflexivity.
  - intros Hp block Hf Hle. apply Z.eqb_neq in Hp. rewrite Hp, Hf.
    apply Z.leb_le in Hle. now rewrite Hle.
  - intros Hp Hf. apply Z.eqb_neq in Hp. now rewrite Hp, Hf.
Qed.

Lemma mem_resize_simple_cases_witness :
  mem_resize true NULL 30 pool100 = mem_alloc true 30 pool100 /\
  mem_resize true 4096 20 (run [Alloc true 30] pool100)
  = (4096, run [Alloc true 30] pool100) /\
  mem_resize true 5000 20 pool100
  = (NULL, log [WarnResizeNotFound 5000] pool100).
Proof.
  assert (N1 : 5000 <> NULL) by (unfold NULL; lia).
  assert (N2 : 4096 <> NULL) by (unfold NULL; lia).
  split; [|split].
  - apply (proj1 (mem_resize_simple_cases true NULL 30 pool100)).
    reflexivity.
  - apply (proj1 (proj2 (mem_resize_simple_cases true 4096 20
                           (run [Alloc true 30] pool100)))
                 N2 (mkBlock 30 false 4096)).
    + reflexivity.
    + simpl. lia.
  - apply (proj2 (proj2 (mem_resize_simple_cases true 5000 20 pool100)));
      [exact N1|reflexivity].
Defined.

(** C10.  [mem_resize] does not look at [is_available]: given the
    address of a descriptor that is available (an address [mem_free]
    itself reports as already free) and a size the descriptor covers, it
    returns the address, prints nothing and leaves the state as it is. *)
Theorem mem_resize_accepts_freed_address
  (ok : bool) (ptr size : Z) (w : Pool) (block : MemBlock) :
  ptr <> NULL ->
  find_block ptr (pool_head w) = Some block ->
  is_available block = true ->
  size <= block_size block ->
  mem_resize ok ptr size w = (ptr, w) /\
  stderr (snd (mem_resize ok ptr size w)) = stderr w /\
  mem_free ptr w = log [WarnAlreadyFree ptr] w.
Proof.
  intros Hp Hf Ha Hle.
  assert (E : mem_resize ok ptr size w = (ptr, w)).
  { unfold mem_resize. pose proof Hp as Hp'. apply Z.eqb_neq in Hp'.
    rewrite Hp', Hf. apply Z.leb_le in Hle. now rewrite Hle. }
  rewrite E. split; [reflexivity|]. split; [reflexivity|].
  unfold mem_free. apply Z.eqb_neq in Hp. rewrite Hp.
  rewrite (free_walk_already_free _ _ _ Hf Ha). now rewrite set_head_same.
Qed.

Lemma mem_resize_accepts_freed_address_witness :
  mem_resize true 4096 20 (run [Alloc true 30; Free 4096] pool100)
  = (4096, run [Alloc true 30; Free 4096] pool100).
Proof.
  apply (mem_resize_accepts_freed_address true 4096 20
           (run [Alloc true 30; Free 4096] pool100)
           (mkBlock 100 true 4096)).
  - unfold NULL. lia.
  - reflexivity.
  - reflexivity.
  - simpl. lia.
Defined.

(** * Further properties of the code *)

(** ** Life cycle: [mem_init] and [mem_deinit] *)

(** A fresh pool hands out its whole arena and not one byte more: a
    request above [pool_size] is refused, a request of exactly
    [pool_size] takes the single descriptor as it is, and a smaller one
    splits it, the block starting at the arena base in both cases. *)
Theorem fresh_pool_capacity
  (arena : Z) (meta_ok : bool) (total : Z) (w0 w : Pool) (ok : bool) (n : Z) :
  mem_init arena meta_ok total w0 = Some w ->
  (total < n -> mem_alloc ok n w = (NULL, w)) /\
  (n = total ->
   mem_alloc ok n w = (arena, set_head [mkBlock total false arena] w)) /\
  (n < total -> ok = true ->
   mem_alloc ok n w
   = (arena, set_head [mkBlock n false arena;
                       mkBlock (total - n) true (arena + n)] w)) /\
  (n < total -> ok = false ->
   mem_alloc ok n w = (NULL, log [PerrorNewBlock] w)).
Proof.
  unfold mem_init.
  destruct (arena =? NULL); [discriminate|].
  destruct (negb meta_ok); [discriminate|].
  intros [= <-]. unfold mem_alloc.
  cbn [pool_head alloc_walk fits is_available block_size data_ptr andb].
  split; [|split; [|split]].
  - intros H. apply Z.leb_gt in H. rewrite H. unfold log, set_head.
    cbn [stderr pool_start pool_head total_pool_size memory].
    now rewrite app_nil_r.
  - intros ->. rewrite Z.leb_refl, Z.ltb_irrefl.
    unfold log, set_head, set_available.
    cbn [stderr pool_start pool_head total_pool_size memory
         block_size data_ptr].
    now rewrite app_nil_r.
  - intros H ->. assert ((n <=? total) = true) as -> by (apply Z.leb_le; lia).
    apply Z.ltb_lt in H. rewrite H.
    unfold log, set_head.
    cbn [stderr pool_start pool_head total_pool_size memory].
    now rewrite app_nil_r.
  - intros H ->. assert ((n <=? total) = true) as -> by (apply Z.leb_le; lia).
    apply Z.ltb_lt in H. rewrite H. reflexivity.
Qed.

Lemma fresh_pool_capacity_witness :
  mem_alloc true 101 pool100 = (NULL, pool100) /\
  mem_alloc false 100 pool100
  = (4096, set_head [mkBlock 100 false 4096] pool100) /\
  mem_alloc true 99 pool100
  = (4096, set_head [mkBlock 99 false 4096; mkBlock 1 true 4195] pool100) /\
  mem_alloc false 99 pool100 = (NULL, log [PerrorNewBlock] pool100).
Proof.
  pose proof (fun ok n =>
                fresh_pool_capacity 4096 true 100 blank pool100 ok n eq_refl)
    as H.
  split; [|split; [|split]].
  - apply (proj1 (H true 101)). reflexivity.
  - apply (proj1 (proj2 (H false 100))). reflexivity.
  - apply (proj1 (proj2 (proj2 (H true 99)))); reflexivity.
  - apply (proj2 (proj2 (proj2 (H false 99)))); reflexivity.
Defined.

(** [mem_deinit] can be repeated, and on the pool it leaves behind (as on
    one that was never initialised) every other entry point gives up
    without touching a descriptor or a byte: [mem_alloc] returns [NULL]
    silently, [mem_free] and [mem_resize] of a non-null pointer print
    their not-found warning, and [mem_resize] returns [NULL]. *)
Theorem operations_after_deinit (w : Pool) (ok : bool) (n p : Z) :
  mem_deinit (mem_deinit w) = mem_deinit w /\
  mem_alloc ok n (mem_deinit w) = (NULL, mem_deinit w) /\
  mem_resize ok NULL n (mem_deinit w) = (NULL, mem_deinit w) /\
  (p <> NULL ->
   mem_free p (mem_deinit w) = log [WarnNotFromPool p] (mem_deinit w) /\
   mem_resize ok p n (mem_deinit w)
   = (NULL, log [WarnResizeNotFound p] (mem_deinit w))).
Proof.
  assert (E : mem_alloc ok n (mem_deinit w) = (NULL, mem_deinit w)).
  { unfold mem_alloc, mem_deinit, log, set_head. simpl.
    now rewrite app_nil_r. }
  split; [reflexivity|]. split; [exact E|]. split; [exact E|].
  intros Hp. apply Z.eqb_neq in Hp.
  unfold mem_free, mem_resize. rewrite Hp. split; reflexivity.
Qed.

Lemma operations_after_deinit_witness :
  mem_free 4096 (mem_deinit pool_in_use)
  = log [WarnNotFromPool 4096] (mem_deinit pool_in_use) /\
  mem_resize true 4096 10 (mem_deinit pool_in_use)
  = (NULL, log [WarnResizeNotFound 4096] (mem_deinit pool_in_use)).
Proof.
  apply (proj2 (proj2 (proj2
           (operations_after_deinit pool_in_use true 10 4096)))).
  unfold NULL. lia.
Defined.

(** ** What an allocation can and cannot touch *)

Section Liveness.

(** In a pool whose arena is not at address zero a non-null answer is
    the address of a descriptor that is now in use with [n] bytes. *)
Lemma alloc_walk_result_in (ok : bool) (n : Z) (l : list MemBlock) :
  fst (fst (alloc_walk ok n l)) <> NULL ->
  In (mkBlock n false (fst (fst (alloc_walk ok n l))))
     (snd (fst (alloc_walk ok n l))).
Proof.
  induction l as [|b l IH]; simpl; intros Hp; [contradiction|].
  destruct (fits n b) eqn:F.
  - destruct (fits_le _ _ F) as (_ & Hle).
    destruct (n <? block_size b) eqn:L; [destruct ok|]; simpl in *.
    + now left.
    + contradiction.
    + left. apply Z.ltb_ge in L. unfold set_available. f_equal. lia.
  - destruct (alloc_walk ok n l) as [[p l'] ms]. simpl in *. auto.
Qed.

Lemma alloc_walk_keeps_unfit (ok : bool) (n : Z) (l : list MemBlock) :
  forall b, In b l -> fits n b = false ->
            In b (snd (fst (alloc_walk ok n l))).
Proof.
  induction l as [|x l IH]; simpl; intros b Hin Hnf; [contradiction|].
  destruct (fits n x) eqn:F.
  - destruct Hin as [->|Hin]; [congruence|].
    destruct (n <? block_size x); [destruct ok|]; simpl; auto.
  - specialize (IH b).
    destruct (alloc_walk ok n l) as [[p l'] ms]. simpl in *.
    destruct Hin as [->|Hin]; auto.
Qed.

Lemma alloc_walk_avoids (ok : bool) (n : Z) (l : list MemBlock) :
  forall s e b,
    tiles s l e -> In b l -> fits n b = false ->
    fst (fst (alloc_walk ok n l)) <> NULL ->
    fst (fst (alloc_walk ok n l)) + n <= data_ptr b \/
    data_ptr b + block_size b <= fst (fst (alloc_walk ok n l)).
Proof.
  induction l as [|x l IH]; simpl; intros s e b H Hin Hnf Hp.
  - contradiction.
  - destruct H as (Hs & Hb & Hr).
    destruct (fits n x) eqn:F.
    + destruct (fits_le _ _ F) as (_ & Hn).
      destruct Hin as [->|Hin]; [congruence|].
      destruct (tiles_in_range _ _ _ _ Hr Hin) as (Hlo & _).
      destruct (n <? block_size x); [destruct ok|]; simpl in *;
        try contradiction; left; lia.
    + pose proof (alloc_walk_range ok n l _ _ Hr) as Hrange.
      specialize (IH (s + block_size x) e b Hr).
      destruct (alloc_walk ok n l) as [[p l'] ms]. simpl in *.
      destruct Hin as [->|Hin].
      * specialize (Hrange Hp). right. lia.
      * now apply IH.
Qed.

Lemma in_use_unfit (n : Z) (b : MemBlock) :
  is_available b = false -> fits n b = false.
Proof. unfold fits. now intros ->. Qed.

Lemma coalesce_keeps_in_use (next : list MemBlock) :
  forall cur b, In b next -> is_available b = false ->
                In b (coalesce cur next).
Proof.
  induction next as [|nb next IH]; simpl; intros cur b Hin Hb.
  - contradiction.
  - destruct (is_available nb) eqn:A.
    + destruct Hin as [->|Hin]; [congruence|]. now apply IH.
    + right. exact Hin.
Qed.

Lemma free_walk_keeps_in_use (ptr : Z) (l : list MemBlock) :
  forall b, In b l -> is_available b = false -> data_ptr b <> ptr ->
            In b (fst (free_walk ptr l)).
Proof.
  induction l as [|x l IH]; simpl; intros b Hin Hb Hne; [contradiction|].
  destruct (data_ptr x =? ptr) eqn:E.
  - destruct (is_available x); simpl; [exact Hin|].
    destruct Hin as [->|Hin].
    + apply Z.eqb_eq in E. contradiction.
    + now apply coalesce_keeps_in_use.
  - specialize (IH b).
    destruct (free_walk ptr l) as [l' ms]. simpl in *.
    destruct Hin as [->|Hin]; auto.
Qed.

Lemma mem_alloc_keeps_live (ok : bool) (n : Z) (w : Pool) (b : MemBlock) :
  In b (pool_head w) -> is_available b = false ->
  In b (pool_head (snd (mem_alloc ok n w))).
Proof.
  intros Hin Hb. rewrite mem_alloc_head.
  apply alloc_walk_keeps_unfit; [exact Hin|now apply in_use_unfit].
Qed.

Lemma mem_free_keeps_live (ptr : Z) (w : Pool) (b : MemBlock) :
  In b (pool_head w) -> is_available b = false -> data_ptr b <> ptr ->
  In b (pool_head (mem_free ptr w)).
Proof.
  intros Hin Hb Hne. rewrite mem_free_head.
  destruct (ptr =? NULL); [exact Hin|].
  now apply free_walk_keeps_in_use.
Qed.

Lemma step_keeps_live (w : Pool) (op : Op) (b : MemBlock) :
  In b (pool_head w) -> is_available b = false ->
  op_spares (data_ptr b) op ->
  In b (pool_head (step w op)).
Proof.
  destruct op as [ok n|p|ok p n]; simpl; intros Hin Hb Hsp.
  - now apply mem_alloc_keeps_live.
  - apply mem_free_keeps_live; auto.
  - unfold mem_resize. destruct (p =? NULL).
    + now apply mem_alloc_keeps_live.
    + destruct (find_block p (pool_head w)) as [block|]; [|exact Hin].
      destruct (n <=? block_size block); [exact Hin|].
      pose proof (mem_alloc_keeps_live ok n w b Hin Hb) as H1.
      destruct (mem_alloc ok n w) as [new_ptr w1]. simpl in *.
      destruct (new_ptr =? NULL); simpl; [exact H1|].
      apply mem_free_keeps_live; auto.
Qed.

Lemma step_keeps_contents (w : Pool) (op : Op) (b : MemBlock) :
  pool_inv w ->
  In b (pool_head w) -> is_available b = false ->
  forall a, in_segment b a -> memory (step w op) a = memory w a.
Proof.
  intros Hinv Hin Hb a Ha.
  destruct op as [ok n|p|ok p n]; simpl.
  - now destruct (mem_alloc_frame ok n w) as (_ & _ & ->).
  - now destruct (mem_free_frame p w) as (_ & _ & ->).
  - unfold mem_resize. destruct (p =? NULL).
    + now destruct (mem_alloc_frame ok n w) as (_ & _ & ->).
    + destruct (find_block p (pool_head w)) as [block|] eqn:F;
        [|reflexivity].
      destruct (n <=? block_size block) eqn:L; [reflexivity|].
      apply Z.leb_gt in L.
      destruct Hinv as (Hs & Ht & Htl).
      pose proof (alloc_walk_avoids ok n _ _ _ b Htl Hin
                    (in_use_unfit n b Hb)) as Hav.
      rewrite <- mem_alloc_fst in Hav.
      destruct (mem_alloc_frame ok n w) as (_ & _ & Emem).
      assert (Hb0 : 0 <= block_size block).
      { destruct (find_block_in _ _ _ F) as (Hi & _).
        pose proof (tiles_nonneg _ _ _ Htl) as HF.
        rewrite Forall_forall in HF. exact (HF _ Hi). }
      destruct (mem_alloc ok n w) as [new_ptr w1]. simpl in *.
      destruct (new_ptr =? NULL) eqn:E; simpl; [now rewrite Emem|].
      apply Z.eqb_neq in E.
      destruct (mem_free_frame p (memcpy new_ptr p (block_size block) w1))
        as (_ & _ & ->).
      simpl. rewrite Emem. apply copy_bytes_outside.
      rewrite Z2Nat.id by exact Hb0.
      unfold in_segment in Ha. specialize (Hav E). lia.
Qed.

End Liveness.

(** A block handed out by [mem_alloc] lies, with all its [n] bytes,
    inside the arena. *)
Theorem alloc_block_inside_arena (ok : bool) (n : Z) (w : Pool) :
  pool_inv w ->
  fst (mem_alloc ok n w) <> NULL ->
  pool_start w <= fst (mem_alloc ok n w) /\
  fst (mem_alloc ok n w) + n <= pool_start w + total_pool_size w.
Proof.
  intros (_ & _ & Htl) Hp. rewrite mem_alloc_fst in *.
  now apply (alloc_walk_range ok n _ _ _ Htl).
Qed.

Lemma alloc_block_inside_arena_witness :
  pool_start pool_in_use <= fst (mem_alloc true 50 pool_in_use) /\
  fst (mem_alloc true 50 pool_in_use) + 50
  <= pool_start pool_in_use + total_pool_size pool_in_use.
Proof.
  apply (alloc_block_inside_arena true 50 pool_in_use).
  - unfold pool_inv, SIZE_MODULUS. simpl. lia.
  - unfold NULL. simpl. lia.
Defined.

(** The block handed out by [mem_alloc] shares no byte with a block that
    is in use, and the descriptor of that block is still in the list,
    unchanged. *)
Theorem alloc_avoids_live_blocks
  (ok : bool) (n : Z) (w : Pool) (b : MemBlock) :
  pool_inv w ->
  In b (pool_head w) -> is_available b = false ->
  fst (mem_alloc ok n w) <> NULL ->
  (fst (mem_alloc ok n w) + n <= data_ptr b \/
   data_ptr b + block_size b <= fst (mem_alloc ok n w)) /\
  In b (pool_head (snd (mem_alloc ok n w))).
Proof.
  intros (_ & _ & Htl) Hin Hb Hp. split.
  - rewrite mem_alloc_fst in *.
    exact (alloc_walk_avoids ok n _ _ _ b Htl Hin (in_use_unfit n b Hb) Hp).
  - now apply mem_alloc_keeps_live.
Qed.

Lemma alloc_avoids_live_blocks_witness :
  (fst (mem_alloc true 50 pool_in_use) + 50 <= 4126 \/
   4126 + 20 <= fst (mem_alloc true 50 pool_in_use)) /\
  In (mkBlock 20 false 4126)
     (pool_head (snd (mem_alloc true 50 pool_in_use))).
Proof.
  apply (alloc_avoids_live_blocks true 50 pool_in_use
           (mkBlock 20 false 4126)).
  - unfold pool_inv, SIZE_MODULUS. simpl. lia.
  - simpl. right. left. reflexivity.
  - reflexivity.
  - unfold NULL. simpl. lia.
Defined.

(** Two allocations in a row that both succeed give blocks that do not
    overlap. *)
Theorem successive_allocations_disjoint
  (ok1 ok2 : bool) (n1 n2 : Z) (w : Pool) :
  pool_inv w -> 0 <= n1 ->
  fst (mem_alloc ok1 n1 w) <> NULL ->
  fst (mem_alloc ok2 n2 (snd (mem_alloc ok1 n1 w))) <> NULL ->
  fst (mem_alloc ok1 n1 w) + n1
  <= fst (mem_alloc ok2 n2 (snd (mem_alloc ok1 n1 w))) \/
  fst (mem_alloc ok2 n2 (snd (mem_alloc ok1 n1 w))) + n2
  <= fst (mem_alloc ok1 n1 w).
Proof.
  intros Hinv Hn Hp1 Hp2.
  destruct (mem_alloc_inv ok1 n1 w Hn Hinv) as (_ & _ & Htl).
  assert (Hin : In (mkBlock n1 false (fst (mem_alloc ok1 n1 w)))
                   (pool_head (snd (mem_alloc ok1 n1 w)))).
  { rewrite mem_alloc_head, mem_alloc_fst.
    apply alloc_walk_result_in. now rewrite <- mem_alloc_fst. }
  rewrite mem_alloc_fst in Hp2.
  pose proof (alloc_walk_avoids ok2 n2 _ _ _ _ Htl Hin
                (in_use_unfit n2 (mkBlock n1 false (fst (mem_alloc ok1 n1 w)))
                              eq_refl) Hp2) as H.
  rewrite <- mem_alloc_fst in H. cbn [data_ptr block_size] in H.
  destruct H as [H|H]; [right|left]; exact H.
Qed.

Lemma successive_allocations_disjoint_witness :
  fst (mem_alloc true 30 pool100) + 30
  <= fst (mem_alloc true 20 (snd (mem_alloc true 30 pool100))) \/
  fst (mem_alloc true 20 (snd (mem_alloc true 30 pool100))) + 20
  <= fst (mem_alloc true 30 pool100).
Proof.
  apply (successive_allocations_disjoint true true 30 20 pool100).
  - unfold pool_inv, SIZE_MODULUS. simpl. lia.
  - lia.
  - unfold NULL. simpl. lia.
  - unfold NULL. simpl. lia.
Defined.

(** A block in use is never moved, resized or released by calls made on
    other addresses: its descriptor is in the list, as it was, after any
    sequence of operations none of which is a [mem_free] or a
    [mem_resize] of its own address. *)
Theorem live_block_survives (ops : list Op) (w : Pool) (b : MemBlock) :
  In b (pool_head w) -> is_available b = false ->
  Forall (op_spares (data_ptr b)) ops ->
  In b (pool_head (run ops w)).
Proof.
  revert w. induction ops as [|op ops IH]; simpl; intros w Hin Hb HF.
  - exact Hin.
  - inversion HF as [|? ? Hop HF']; subst.
    apply IH; [|exact Hb|exact HF']. now apply step_keeps_live.
Qed.

Lemma live_block_survives_witness :
  In (mkBlock 20 false 4126)
     (pool_head (run [Free 4096; Alloc true 10; Resize true 4096 40;
                      Free 4146] pool_in_use)).
Proof.
  apply (live_block_survives
           [Free 4096; Alloc true 10; Resize true 4096 40; Free 4146]
           pool_in_use (mkBlock 20 false 4126)).
  - simpl. right. left. reflexivity.
  - reflexivity.
  - repeat constructor; simpl; lia.
Defined.

(** The allocator never writes into a block that is in use: after any
    sequence of operations that spares its address, every byte of the
    block is what it was.  (The only writes are the [memcpy] of
    [mem_resize], into the block it has just obtained.) *)
Theorem live_block_contents_kept (ops : list Op) (w : Pool) (b : MemBlock) :
  pool_inv w ->
  Forall op_typed ops ->
  In b (pool_head w) -> is_available b = false ->
  Forall (op_spares (data_ptr b)) ops ->
  forall a, in_segment b a -> memory (run ops w) a = memory w a.
Proof.
  revert w. induction ops as [|op ops IH]; simpl;
    intros w Hinv Hty Hin Hb HF a Ha.
  - reflexivity.
  - inversion HF as [|? ? Hop HF']; subst.
    inversion Hty as [|? ? Hop' Hty']; subst.
    rewrite (IH (step w op)); auto.
    + now apply step_keeps_contents with (b := b).
    + now apply step_inv.
    + now apply step_keeps_live.
Qed.

Lemma live_block_contents_kept_witness :
  memory (run [Alloc true 10; Resize true 4126 40; Free 4146] pool_in_use)
         4097
  = x2a.
Proof.
  apply (live_block_contents_kept
           [Alloc true 10; Resize true 4126 40; Free 4146]
           pool_in_use (mkBlock 30 false 4096)).
  - unfold pool_inv, SIZE_MODULUS. simpl. lia.
  - repeat constructor; unfold SIZE_MODULUS; simpl; lia.
  - simpl. left. reflexivity.
  - reflexivity.
  - repeat constructor; simpl; lia.
  - unfold in_segment. simpl. lia.
Defined.

(** ** Allocation followed by release *)

Section RoundTrip.

Lemma coalesce_stop (cur : MemBlock) (rest : list MemBlock) :
  stops_merge rest -> coalesce cur rest = cur :: rest.
Proof.
  destruct rest as [|r rest]; simpl; [reflexivity|]. now intros ->.
Qed.

Lemma adjacent_free_tail (b : MemBlock) (rest : list MemBlock) :
  adjacent_free (b :: rest) = false -> adjacent_free rest = false.
Proof.
  destruct rest as [|r rest]; [reflexivity|].
  cbn [adjacent_free]. intros H. apply orb_false_elim in H. tauto.
Qed.

Lemma adjacent_free_head (b : MemBlock) (rest : list MemBlock) :
  adjacent_free (b :: rest) = false -> is_available b = true ->
  stops_merge rest.
Proof.
  destruct rest as [|r rest]; [intros; exact I|].
  cbn [adjacent_free stops_merge]. intros H Hb.
  apply orb_false_elim in H. destruct H as (H & _).
  rewrite Hb in H. exact H.
Qed.

Lemma alloc_free_walk_round_trip (ok : bool) (n : Z) (l : list MemBlock) :
  forall s e p l' ms,
    tiles s l e -> e - s < SIZE_MODULUS -> positive_sizes l ->
    adjacent_free l = false ->
    alloc_walk ok n l = (p, l', ms) -> p <> NULL ->
    free_walk p l' = (l, []) /\ ms = [].
Proof.
  induction l as [|b rest IH]; intros s e p l' ms Htl Hbd HP Hadj Hal Hp.
  - simpl in Hal. injection Hal as <- _ _. contradiction.
  - destruct Htl as (Hs & Hb0 & Hr).
    inversion HP as [|? ? Hbpos HP']; subst.
    pose proof (tiles_le _ _ _ Hr) as Hle.
    cbn [alloc_walk] in Hal.
    destruct (fits n b) eqn:F.
    + destruct (fits_le _ _ F) as (Ha & Hn).
      pose proof (adjacent_free_head _ _ Hadj Ha) as Hstop.
      destruct (n <? block_size b) eqn:L; [destruct ok|].
      * injection Hal as <- <- <-. split; [|reflexivity].
        cbn [free_walk data_ptr is_available]. rewrite Z.eqb_refl.
        cbn [coalesce set_available set_size is_available block_size
                      data_ptr].
        rewrite coalesce_stop by exact Hstop.
        unfold size_add. replace (n + (block_size b - n))
          with (block_size b) by lia.
        rewrite Z.mod_small by lia.
        destruct b as [bs av dp]. simpl in *. now subst av.
      * injection Hal as <- _ _. contradiction.
      * injection Hal as <- <- <-. split; [|reflexivity].
        cbn [free_walk set_available data_ptr is_available].
        rewrite Z.eqb_refl.
        rewrite coalesce_stop by exact Hstop.
        destruct b as [bs av dp]. simpl in *. now subst av.
    + destruct (alloc_walk ok n rest) as [[p0 l0] ms0] eqn:E.
      injection Hal as <- <- <-.
      pose proof (alloc_walk_range ok n rest _ _ Hr) as Hrange.
      rewrite E in Hrange. simpl in Hrange. specialize (Hrange Hp).
      assert (Hbd' : e - (data_ptr b + block_size b) < SIZE_MODULUS) by lia.
      destruct (IH _ _ _ _ _ Hr Hbd' HP' (adjacent_free_tail _ _ Hadj)
                   eq_refl Hp) as (Hfw & ->).
      split; [|reflexivity].
      cbn [free_walk].
      assert ((data_ptr b =? p0) = false) as -> by (apply Z.eqb_neq; lia).
      now rewrite Hfw.
Qed.

End RoundTrip.

(** In a well-formed pool with no two available neighbours, releasing
    the block [mem_alloc] has just returned puts the pool back exactly as
    it was: the split is undone by the merge, and nothing is printed. *)
Theorem alloc_then_free_restores (ok : bool) (n : Z) (w : Pool) :
  well_formed w ->
  adjacent_free (pool_head w) = false ->
  fst (mem_alloc ok n w) <> NULL ->
  mem_free (fst (mem_alloc ok n w)) (snd (mem_alloc ok n w)) = w.
Proof.
  intros ((Hs & Ht & Htl) & HP) Hadj Hp.
  unfold mem_alloc in *.
  destruct (alloc_walk ok n (pool_head w)) as [[p l'] ms] eqn:E.
  cbn [fst snd] in *.
  assert (Hbd : pool_start w + total_pool_size w - pool_start w
                < SIZE_MODULUS) by lia.
  destruct (alloc_free_walk_round_trip ok n _ _ _ _ _ _ Htl Hbd HP Hadj E Hp)
    as (Hfw & ->).
  unfold mem_free. apply Z.eqb_neq in Hp. rewrite Hp.
  rewrite log_nil. cbn [pool_head set_head]. rewrite Hfw.
  rewrite log_nil. now destruct w.
Qed.

Lemma alloc_then_free_restores_witness :
  mem_free (fst (mem_alloc true 10 pool_in_use))
           (snd (mem_alloc true 10 pool_in_use))
  = pool_in_use.
Proof.
  apply (alloc_then_free_restores true 10 pool_in_use).
  - unfold well_formed, pool_inv, positive_sizes, SIZE_MODULUS. simpl.
    repeat split; try lia. repeat constructor; simpl; lia.
  - reflexivity.
  - unfold NULL. simpl. lia.
Defined.

(** ** Accounting *)

Section Accounting.

Lemma used_bytes_cons (b : MemBlock) (l : list MemBlock) :
  used_bytes (b :: l)
  = (if is_available b then 0 else block_size b) + used_bytes l.
Proof.
  unfold used_bytes. simpl. now destruct (is_available b).
Qed.

Lemma alloc_walk_used (ok : bool) (n : Z) (l : list MemBlock) :
  fst (fst (alloc_walk ok n l)) <> NULL ->
  used_bytes (snd (fst (alloc_walk ok n l))) = used_bytes l + n.
Proof.
  induction l as [|b l IH]; simpl; intros Hp; [contradiction|].
  destruct (fits n b) eqn:F.
  - destruct (fits_le _ _ F) as (Ha & Hn).
    destruct (n <? block_size b) eqn:L; [destruct ok|]; simpl in *.
    + rewrite !used_bytes_cons. simpl. rewrite Ha. lia.
    + contradiction.
    + rewrite !used_bytes_cons. simpl. rewrite Ha.
      apply Z.ltb_ge in L. lia.
  - destruct (alloc_walk ok n l) as [[p l'] ms]. simpl in *.
    rewrite !used_bytes_cons. rewrite (IH Hp). lia.
Qed.

Lemma coalesce_used (next : list MemBlock) :
  forall cur, is_available cur = true ->
              used_bytes (coalesce cur next) = used_bytes next.
Proof.
  induction next as [|nb next IH]; simpl; intros cur Hc.
  - rewrite used_bytes_cons. rewrite Hc. reflexivity.
  - destruct (is_available nb) eqn:A.
    + rewrite IH by exact Hc. rewrite used_bytes_cons. rewrite A. lia.
    + rewrite (used_bytes_cons cur). rewrite Hc. lia.
Qed.

Lemma free_walk_used (ptr : Z) (l : list MemBlock) (b : MemBlock) :
  find_block ptr l = Some b -> is_available b = false ->
  used_bytes (fst (free_walk ptr l)) = used_bytes l - block_size b.
Proof.
  induction l as [|x l IH]; simpl; [discriminate|].
  destruct (data_ptr x =? ptr).
  - intros [= ->] Hb. rewrite Hb. simpl.
    rewrite coalesce_used by reflexivity.
    rewrite used_bytes_cons. rewrite Hb. lia.
  - intros Hf Hb. specialize (IH Hf Hb).
    destruct (free_walk ptr l) as [l' ms]. simpl in *.
    rewrite !used_bytes_cons. lia.
Qed.

Lemma used_bytes_bounds (l : list MemBlock) :
  forall s e, tiles s l e -> 0 <= used_bytes l <= e - s.
Proof.
  induction l as [|b l IH]; simpl; intros s e H.
  - unfold used_bytes. simpl. lia.
  - destruct H as (_ & Hb & Hr). specialize (IH _ _ Hr).
    rewrite used_bytes_cons. destruct (is_available b); lia.
Qed.

End Accounting.

(** A successful [mem_alloc(n)] takes exactly [n] bytes out of the pool:
    the in-use total grows by [n], with no header or padding charged to
    the arena. *)
Theorem mem_alloc_uses_exactly_n (ok : bool) (n : Z) (w : Pool) :
  fst (mem_alloc ok n w) <> NULL ->
  used_bytes (pool_head (snd (mem_alloc ok n w)))
  = used_bytes (pool_head w) + n.
Proof.
  rewrite mem_alloc_fst, mem_alloc_head. apply alloc_walk_used.
Qed.

Lemma mem_alloc_uses_exactly_n_witness :
  used_bytes (pool_head (snd (mem_alloc true 10 pool_in_use)))
  = used_bytes (pool_head pool_in_use) + 10.
Proof.
  apply (mem_alloc_uses_exactly_n true 10 pool_in_use).
  unfold NULL. simpl. lia.
Defined.

(** Releasing a block in use gives back exactly its [block_size]: the
    merge moves bytes between available descriptors only. *)
Theorem mem_free_releases_block_size (ptr : Z) (w : Pool) (b : MemBlock) :
  ptr <> NULL ->
  find_block ptr (pool_head w) = Some b ->
  is_available b = false ->
  used_bytes (pool_head (mem_free ptr w))
  = used_bytes (pool_head w) - block_size b.
Proof.
  intros Hp Hf Hb. rewrite mem_free_head.
  apply Z.eqb_neq in Hp. rewrite Hp. now apply free_walk_used.
Qed.

Lemma mem_free_releases_block_size_witness :
  used_bytes (pool_head (mem_free 4126 pool_in_use))
  = used_bytes (pool_head pool_in_use) - 20.
Proof.
  apply (mem_free_releases_block_size 4126 pool_in_use
           (mkBlock 20 false 4126)).
  - unfold NULL. lia.
  - reflexivity.
  - reflexivity.
Defined.

(** The pool is never over-committed: whatever the calls made since
    [mem_init], the bytes in use are at most [pool_size]. *)
Theorem used_bytes_within_pool
  (arena : Z) (meta_ok : bool) (total : Z) (w0 w : Pool) (ops : list Op) :
  0 <= arena -> 0 < total < SIZE_MODULUS ->
  mem_init arena meta_ok total w0 = Some w ->
  Forall op_typed ops ->
  0 <= used_bytes (pool_head (run ops w)) <= total.
Proof.
  intros Ha Ht Hi Hty.
  destruct (mem_init_wf _ _ _ _ _ Ha Ht Hi) as (Hwf & Hs & Hsz).
  pose proof (run_inv ops w Hty (proj1 Hwf)) as (_ & _ & Htl).
  destruct (run_frame ops w) as (Es & Et).
  rewrite Es, Et, Hs, Hsz in Htl.
  pose proof (used_bytes_bounds _ _ _ Htl). lia.
Qed.

Lemma used_bytes_within_pool_witness :
  0 <= used_bytes
         (pool_head (run [Alloc true 60; Alloc true 60; Alloc true 40]
                         pool100))
  <= 100.
Proof.
  apply (used_bytes_within_pool 4096 true 100 blank pool100
           [Alloc true 60; Alloc true 60; Alloc true 40]).
  - lia.
  - unfold SIZE_MODULUS. lia.
  - reflexivity.
  - repeat constructor; unfold SIZE_MODULUS; simpl; lia.
Defined.

(** ** Addresses that are not the start of a block *)

Section ForeignAddresses.

Lemma find_block_none_outside (q : Z) (l : list MemBlock) :
  forall s e,
    tiles s l e -> positive_sizes l -> q < s \/ e <= q ->
    find_block q l = None.
Proof.
  induction l as [|b l IH]; simpl; intros s e H HP Hq; [reflexivity|].
  destruct H as (Hs & _ & Hr). inversion HP as [|? ? Hb HP']; subst.
  pose proof (tiles_le _ _ _ Hr) as Hle.
  assert ((data_ptr b =? q) = false) as -> by (apply Z.eqb_neq; lia).
  apply (IH _ _ Hr HP'). lia.
Qed.

Lemma find_block_none_interior (q : Z) (l : list MemBlock) :
  forall s e b,
    tiles s l e -> positive_sizes l -> In b l ->
    data_ptr b < q < data_ptr b + block_size b ->
    find_block q l = None.
Proof.
  induction l as [|x l IH]; simpl; intros s e b H HP Hin Hq;
    [contradiction|].
  destruct H as (Hs & _ & Hr). inversion HP as [|? ? Hx HP']; subst.
  destruct Hin as [->|Hin].
  - assert ((data_ptr b =? q) = false) as -> by (apply Z.eqb_neq; lia).
    apply (find_block_none_outside q l _ _ Hr HP'). lia.
  - destruct (tiles_in_range _ _ _ _ Hr Hin) as (Hlo & _).
    assert ((data_ptr x =? q) = false) as -> by (apply Z.eqb_neq; lia).
    now apply (IH _ _ b Hr HP').
Qed.

End ForeignAddresses.

(** Only the first byte of a block names it.  In a well-formed pool an
    address strictly inside a block, or outside the arena, is foreign to
    [mem_free] and to [mem_resize] alike: each prints its not-found
    warning and changes nothing, and [mem_resize] returns [NULL]. *)
Theorem interior_and_outside_addresses_rejected
  (ok : bool) (q n : Z) (w : Pool) :
  well_formed w ->
  q <> NULL ->
  (exists b, In b (pool_head w) /\
             data_ptr b < q < data_ptr b + block_size b) \/
  q < pool_start w \/ pool_start w + total_pool_size w <= q ->
  mem_free q w = log [WarnNotFromPool q] w /\
  mem_resize ok q n w = (NULL, log [WarnResizeNotFound q] w).
Proof.
  intros ((Hs & Ht & Htl) & HP) Hq Hcase.
  assert (Hnone : find_block q (pool_head w) = None).
  { destruct Hcase as [(b & Hin & Hb)|Hout].
    - exact (find_block_none_interior q _ _ _ b Htl HP Hin Hb).
    - exact (find_block_none_outside q _ _ _ Htl HP Hout). }
  apply Z.eqb_neq in Hq. unfold mem_free, mem_resize. rewrite Hq, Hnone.
  rewrite (free_walk_not_found _ _ Hnone). now rewrite set_head_same.
Qed.

Lemma interior_and_outside_addresses_rejected_witness :
  mem_free 4100 pool_in_use = log [WarnNotFromPool 4100] pool_in_use /\
  mem_resize true 4196 8 pool_in_use
  = (NULL, log [WarnResizeNotFound 4196] pool_in_use).
Proof.
  assert (Hwf : well_formed pool_in_use).
  { unfold well_formed, pool_inv, positive_sizes, SIZE_MODULUS. simpl.
    repeat split; try lia. repeat constructor; simpl; lia. }
  assert (Hq1 : 4100 <> NULL) by (unfold NULL; lia).
  assert (Hq2 : 4196 <> NULL) by (unfold NULL; lia).
  destruct (interior_and_outside_addresses_rejected
              true 4100 8 pool_in_use Hwf Hq1) as (E1 & _).
  { left. exists (mkBlock 30 false 4096). split.
    - simpl. left. reflexivity.
    - simpl. lia. }
  destruct (interior_and_outside_addresses_rejected
              true 4196 8 pool_in_use Hwf Hq2) as (_ & E2).
  { right. right. simpl. lia. }
  split; [exact E1|exact E2].
Defined.

(** ** Resize, continued *)

(** [mem_resize] of an address that was already released, asking for
    more than its descriptor holds, goes ahead all the same: it obtains a
    new block, copies the stale bytes into it and returns it, while the
    [mem_free] it ends with only prints the already-free warning.  The
    new block stays allocated. *)
Theorem mem_resize_of_freed_block_allocates
  (ok : bool) (ptr size : Z) (w : Pool) (block : MemBlock) :
  pool_inv w ->
  ptr <> NULL ->
  find_block ptr (pool_head w) = Some block ->
  is_available block = true ->
  block_size block < size ->
  fst (mem_alloc ok size w) <> NULL ->
  mem_resize ok ptr size w
  = (fst (mem_alloc ok size w),
     log [WarnAlreadyFree ptr]
         (memcpy (fst (mem_alloc ok size w)) ptr (block_size block)
                 (snd (mem_alloc ok size w)))) /\
  used_bytes (pool_head (snd (mem_resize ok ptr size w)))
  = used_bytes (pool_head w) + size.
Proof.
  intros (Hs & Ht & Htl) Hp Hf Ha Hlt Hnew.
  assert (Hnf : fits size block = false).
  { unfold fits. apply Z.leb_gt in Hlt. rewrite Hlt. apply andb_false_r. }
  pose proof (alloc_walk_keeps_block ok size ptr _ _ _ block Htl Hf Hnf)
    as Hkeep.
  rewrite <- mem_alloc_head in Hkeep.
  pose proof Hnew as Hused. rewrite mem_alloc_fst in Hused.
  apply alloc_walk_used in Hused. rewrite <- mem_alloc_head in Hused.
  unfold mem_resize.
  pose proof Hp as Hp'. apply Z.eqb_neq in Hp'. rewrite Hp', Hf.
  pose proof Hlt as Hlt'. apply Z.leb_gt in Hlt'. rewrite Hlt'.
  destruct (mem_alloc ok size w) as [new_ptr w1]. cbn [fst snd] in *.
  apply Z.eqb_neq in Hnew. rewrite Hnew.
  assert (E : mem_free ptr (memcpy new_ptr ptr (block_size block) w1)
              = log [WarnAlreadyFree ptr]
                    (memcpy new_ptr ptr (block_size block) w1)).
  { assert (Hkeep' : find_block ptr
                       (pool_head (memcpy new_ptr ptr (block_size block) w1))
                     = Some block) by exact Hkeep.
    unfold mem_free. rewrite Hp'.
    rewrite (free_walk_already_free _ _ _ Hkeep' Ha).
    now rewrite set_head_same. }
  rewrite E. split; [reflexivity|]. exact Hused.
Qed.

Lemma mem_resize_of_freed_block_allocates_witness :
  fst (mem_resize true 4096 40 (mem_free 4096 pool_in_use)) = 4146 /\
  pool_head (snd (mem_resize true 4096 40 (mem_free 4096 pool_in_use)))
  = [mkBlock 30 true 4096; mkBlock 20 false 4126;
     mkBlock 40 false 4146; mkBlock 10 true 4186].
Proof.
  destruct (mem_resize_of_freed_block_allocates true 4096 40
              (mem_free 4096 pool_in_use) (mkBlock 30 true 4096))
    as (E & _).
  - unfold pool_inv, SIZE_MODULUS. simpl. lia.
  - unfold NULL. lia.
  - reflexivity.
  - reflexivity.
  - simpl. lia.
  - unfold NULL. simpl. lia.
  - rewrite E. split; reflexivity.
Defined.

(** A [mem_resize] that moves a block in use charges the pool the
    difference: the bytes in use grow by [size] and shrink by the old
    [block_size]. *)
Theorem mem_resize_grow_accounting
  (ok : bool) (ptr size : Z) (w : Pool) (block : MemBlock) :
  pool_inv w ->
  ptr <> NULL ->
  find_block ptr (pool_head w) = Some block ->
  is_available block = false ->
  block_size block < size ->
  fst (mem_alloc ok size w) <> NULL ->
  used_bytes (pool_head (snd (mem_resize ok ptr size w)))
  = used_bytes (pool_head w) + size - block_size block.
Proof.
  intros (Hs & Ht & Htl) Hp Hf Ha Hlt Hnew.
  assert (Hnf : fits size block = false) by now apply in_use_unfit.
  pose proof (alloc_walk_keeps_block ok size ptr _ _ _ block Htl Hf Hnf)
    as Hkeep.
  rewrite <- mem_alloc_head in Hkeep.
  pose proof Hnew as Hused. rewrite mem_alloc_fst in Hused.
  apply alloc_walk_used in Hused. rewrite <- mem_alloc_head in Hused.
  unfold mem_resize.
  pose proof Hp as Hp'. apply Z.eqb_neq in Hp'. rewrite Hp', Hf.
  pose proof Hlt as Hlt'. apply Z.leb_gt in Hlt'. rewrite Hlt'.
  destruct (mem_alloc ok size w) as [new_ptr w1]. cbn [fst snd] in *.
  apply Z.eqb_neq in Hnew. rewrite Hnew. cbn [snd].
  rewrite mem_free_head. rewrite Hp'.
  change (pool_head (memcpy new_ptr ptr (block_size block) w1))
    with (pool_head w1).
  rewrite (free_walk_used _ _ _ Hkeep Ha). lia.
Qed.

Lemma mem_resize_grow_accounting_witness :
  used_bytes (pool_head (snd (mem_resize true 4096 40 pool_in_use)))
  = used_bytes (pool_head pool_in_use) + 40 - 30.
Proof.
  apply (mem_resize_grow_accounting true 4096 40 pool_in_use
           (mkBlock 30 false 4096)).
  - unfold pool_inv, SIZE_MODULUS. simpl. lia.
  - unfold NULL. lia.
  - reflexivity.
  - reflexivity.
  - simpl. lia.
  - unfold NULL. simpl. lia.
Defined.

(** ** Reuse of released memory *)

Section Reuse.

Lemma coalesce_grows (next : list MemBlock) :
  forall cur s e,
    tiles s (cur :: next) e -> e - s < SIZE_MODULUS ->
    exists n rest,
      coalesce cur next = set_size n cur :: rest /\ block_size cur <= n.
Proof.
  induction next as [|nb next IH]; intros cur s e H Hbd.
  - exists (block_size cur), []. split; [now destruct cur|lia].
  - cbn [coalesce]. destruct (is_available nb).
    + destruct H as (Hp & Hc & Hq & Hn & Hr).
      pose proof (tiles_le _ _ _ Hr) as Hle.
      destruct (IH (set_size (size_add (block_size cur) (block_size nb)) cur)
                   s e) as (n & rest & -> & Hge).
      * simpl. rewrite size_add_small by lia.
        repeat split; try lia. now rewrite Z.add_assoc.
      * exact Hbd.
      * exists n, rest. split; [reflexivity|].
        simpl in Hge. rewrite size_add_small in Hge by lia. lia.
    + exists (block_size cur), (nb :: next).
      split; [now destruct cur|lia].
Qed.

Lemma free_walk_grows (ptr : Z) (l : list MemBlock) :
  forall s e b,
    tiles s l e -> e - s < SIZE_MODULUS ->
    find_block ptr l = Some b -> is_available b = false ->
    exists b', In b' (fst (free_walk ptr l)) /\ data_ptr b' = ptr /\
               is_available b' = true /\ block_size b <= block_size b'.
Proof.
  induction l as [|x l IH]; simpl; intros s e b H Hbd Hf Hb;
    [discriminate|].
  destruct (data_ptr x =? ptr) eqn:E.
  - injection Hf as ->. rewrite Hb. simpl.
    destruct (coalesce_grows l (set_available true b) s e) as
      (n & rest & -> & Hge); [exact H|exact Hbd|].
    exists (set_size n (set_available true b)).
    apply Z.eqb_eq in E. simpl in *. auto.
  - destruct H as (Hs & Hx & Hr).
    assert (Hbd' : e - (s + block_size x) < SIZE_MODULUS) by lia.
    destruct (IH _ _ b Hr Hbd' Hf Hb) as (b' & Hin & Hrest).
    destruct (free_walk ptr l) as [l' ms]. simpl in *.
    exists b'. auto.
Qed.

Lemma alloc_walk_succeeds (n : Z) (l : list MemBlock) :
  forall s e x,
    tiles s l e -> 0 < s -> In x l -> fits n x = true ->
    fst (fst (alloc_walk true n l)) <> NULL /\
    fst (fst (alloc_walk true n l)) <= data_ptr x.
Proof.
  induction l as [|y l IH]; simpl; intros s e x H Hs Hin Hx;
    [contradiction|].
  destruct H as (Hy & Hy0 & Hr).
  destruct (fits n y) eqn:F.
  - assert (s <= data_ptr x) as Hlo.
    { destruct Hin as [<-|Hin]; [lia|].
      destruct (tiles_in_range _ _ _ _ Hr Hin). lia. }
    destruct (n <? block_size y); simpl; unfold NULL; lia.
  - destruct Hin as [->|Hin]; [congruence|].
    assert (0 < s + block_size y) as Hs' by lia.
    specialize (IH _ _ x Hr Hs' Hin Hx).
    destruct (alloc_walk true n l) as [[p l'] ms]. simpl in *. exact IH.
Qed.

End Reuse.

(** Released memory can be had again: after [mem_free] of a block in
    use, a request for as many bytes as that block had succeeds (when the
    descriptor for a split can be created), at the freed address or
    below it. *)
Theorem freed_block_is_reusable (ptr : Z) (w : Pool) (b : MemBlock) :
  pool_inv w ->
  ptr <> NULL ->
  find_block ptr (pool_head w) = Some b ->
  is_available b = false ->
  fst (mem_alloc true (block_size b) (mem_free ptr w)) <> NULL /\
  fst (mem_alloc true (block_size b) (mem_free ptr w)) <= ptr.
Proof.
  intros Hinv Hp Hf Hb.
  pose proof (mem_free_inv ptr w Hinv) as (Hs' & _ & Htl').
  destruct Hinv as (Hs & Ht & Htl).
  assert (Hbd : pool_start w + total_pool_size w - pool_start w
                < SIZE_MODULUS) by lia.
  destruct (free_walk_grows ptr _ _ _ b Htl Hbd Hf Hb)
    as (b' & Hin & Hptr & Ha & Hge).
  rewrite mem_alloc_fst.
  assert (Hin' : In b' (pool_head (mem_free ptr w))).
  { rewrite mem_free_head. apply Z.eqb_neq in Hp. now rewrite Hp. }
  assert (Hfit : fits (block_size b) b' = true).
  { unfold fits. rewrite Ha. apply Z.leb_le. exact Hge. }
  pose proof (alloc_walk_succeeds _ _ _ _ b' Htl' Hs' Hin' Hfit) as H.
  rewrite Hptr in H. exact H.
Qed.

Lemma freed_block_is_reusable_witness :
  fst (mem_alloc true 20 (mem_free 4126 pool_in_use)) <> NULL /\
  fst (mem_alloc true 20 (mem_free 4126 pool_in_use)) <= 4126.
Proof.
  apply (freed_block_is_reusable 4126 pool_in_use (mkBlock 20 false 4126)).
  - unfold pool_inv, SIZE_MODULUS. simpl. lia.
  - unfold NULL. lia.
  - reflexivity.
  - reflexivity.
Defined.

(** ** What the operations never do *)

Section Never.

Lemma adjacent_free_cons (x : MemBlock) (l : list MemBlock) :
  adjacent_free l = true -> adjacent_free (x :: l) = true.
Proof.
  destruct l as [|y l]; [discriminate|].
  intros H. cbn [adjacent_free] in *. rewrite H. apply orb_true_r.
Qed.

Lemma adjacent_free_app (pre : list MemBlock) (a c : MemBlock)
      (rest : list MemBlock) :
  is_available a = true -> is_available c = true ->
  adjacent_free (pre ++ a :: c :: rest) = true.
Proof.
  intros Ha Hc. induction pre as [|x pre IH].
  - cbn [app adjacent_free]. now rewrite Ha, Hc.
  - rewrite <- app_comm_cons. now apply adjacent_free_cons.
Qed.

Lemma alloc_walk_marks_one (ok : bool) (n : Z) (l : list MemBlock) :
  forall b,
    In b (snd (fst (alloc_walk ok n l))) -> is_available b = false ->
    In b l \/
    (b = mkBlock n false (fst (fst (alloc_walk ok n l))) /\
     exists x, In x l /\ fits n x = true /\
               data_ptr x = fst (fst (alloc_walk ok n l))).
Proof.
  induction l as [|x l IH]; simpl; intros b Hin Hb; [contradiction|].
  destruct (fits n x) eqn:F.
  - destruct (fits_le _ _ F) as (_ & Hle).
    destruct (n <? block_size x) eqn:L; [destruct ok|]; simpl in *.
    + destruct Hin as [<-|[<-|Hin]].
      * right. split; [reflexivity|]. exists x. auto.
      * discriminate.
      * auto.
    + auto.
    + destruct Hin as [<-|Hin]; [|auto].
      right. apply Z.ltb_ge in L. split.
      * unfold set_available. f_equal. lia.
      * exists x. auto.
  - specialize (IH b).
    destruct (alloc_walk ok n l) as [[p l'] ms]. simpl in *.
    destruct Hin as [<-|Hin]; [auto|].
    destruct (IH Hin Hb) as [H|(H & y & Hy & Hfy & Hdy)]; [auto|].
    right. split; [exact H|]. exists y. auto.
Qed.

Lemma coalesce_marks_none (next : list MemBlock) :
  forall cur b,
    is_available cur = true ->
    In b (coalesce cur next) -> is_available b = false -> In b next.
Proof.
  induction next as [|nb next IH]; simpl; intros cur b Hc Hin Hb.
  - destruct Hin as [<-|[]]. congruence.
  - destruct (is_available nb) eqn:A.
    + right. apply (IH _ b) in Hin; auto.
    + destruct Hin as [<-|Hin]; [congruence|exact Hin].
Qed.

Lemma free_walk_marks_none (ptr : Z) (l : list MemBlock) :
  forall b, In b (fst (free_walk ptr l)) -> is_available b = false ->
            In b l.
Proof.
  induction l as [|x l IH]; simpl; intros b Hin Hb; [contradiction|].
  destruct (data_ptr x =? ptr).
  - destruct (is_available x); simpl in Hin; [exact Hin|].
    right. now apply (coalesce_marks_none l (set_available true x)).
  - specialize (IH b).
    destruct (free_walk ptr l) as [l' ms]. simpl in *.
    destruct Hin as [<-|Hin]; auto.
Qed.

End Never.

(** Whenever the descriptor just before the released block is available,
    [mem_free] leaves the two side by side: it looks forward only, for
    every list and not just in one scenario. *)
Theorem mem_free_leaves_free_predecessor
  (ptr : Z) (w : Pool) (pre post : list MemBlock) (a b : MemBlock) :
  ptr <> NULL ->
  pool_head w = pre ++ a :: b :: post ->
  Forall (fun x => data_ptr x <> ptr) (pre ++ [a]) ->
  data_ptr b = ptr ->
  is_available a = true ->
  is_available b = false ->
  adjacent_free (pool_head (mem_free ptr w)) = true /\
  exists n rest,
    pool_head (mem_free ptr w) = pre ++ a :: mkBlock n true ptr :: rest.
Proof.
  intros Hp Hl Hpre Hb Ha Hu.
  rewrite mem_free_head. apply Z.eqb_neq in Hp. rewrite Hp, Hl.
  replace (pre ++ a :: b :: post) with ((pre ++ [a]) ++ b :: post)
    by (now rewrite <- app_assoc).
  rewrite (free_walk_skip _ _ _ Hpre). cbn [free_walk].
  apply Z.eqb_eq in Hb. rewrite Hb, Hu. apply Z.eqb_eq in Hb.
  destruct (coalesce_head post (set_available true b)) as (n & rest & ->).
  cbn [fst]. rewrite <- app_assoc. cbn [app].
  assert (E : set_size n (set_available true b) = mkBlock n true ptr).
  { unfold set_size, set_available. simpl. now rewrite Hb. }
  rewrite E. split.
  - now apply adjacent_free_app.
  - now exists n, rest.
Qed.

Lemma mem_free_leaves_free_predecessor_witness :
  adjacent_free
    (pool_head (mem_free 4126 (mem_free 4096 pool_in_use))) = true.
Proof.
  apply (mem_free_leaves_free_predecessor 4126 (mem_free 4096 pool_in_use)
           [] [mkBlock 50 true 4146]
           (mkBlock 30 true 4096) (mkBlock 20 false 4126)).
  - unfold NULL. lia.
  - reflexivity.
  - repeat constructor. simpl. lia.
  - reflexivity.
  - reflexivity.
  - reflexivity.
Defined.

(** A request for more than the bytes that are free is always refused. *)
Theorem mem_alloc_refuses_beyond_free_space (ok : bool) (n : Z) (w : Pool) :
  pool_inv w -> 0 <= n ->
  total_pool_size w - used_bytes (pool_head w) < n ->
  fst (mem_alloc ok n w) = NULL.
Proof.
  intros (Hs & Ht & Htl) Hn Hfree.
  destruct (Z.eq_dec (fst (mem_alloc ok n w)) NULL) as [E|E]; [exact E|].
  exfalso. rewrite mem_alloc_fst in E.
  pose proof (alloc_walk_used ok n _ E) as Hused.
  pose proof (alloc_walk_tiles ok n _ _ _ Hn Htl) as Htl'.
  pose proof (used_bytes_bounds _ _ _ Htl'). lia.
Qed.

Lemma mem_alloc_refuses_beyond_free_space_witness :
  fst (mem_alloc true 51 pool_in_use) = NULL.
Proof.
  apply (mem_alloc_refuses_beyond_free_space true 51 pool_in_use).
  - unfold pool_inv, SIZE_MODULUS. simpl. lia.
  - lia.
  - simpl. lia.
Defined.

(** No sequence of [mem_alloc], [mem_free] and [mem_resize] calls moves
    or resizes the arena: [pool_start] and [total_pool_size] are what
    [mem_init] made them. *)
Theorem arena_bounds_never_change (ops : list Op) (w : Pool) :
  pool_start (run ops w) = pool_start w /\
  total_pool_size (run ops w) = total_pool_size w.
Proof.
  revert w. induction ops as [|op ops IH]; simpl; intros w; [auto|].
  destruct (IH (step w op)) as (-> & ->). apply step_frame.
Qed.

(** Descriptors become in use one at a time and only through the
    allocation that returns them: after [mem_alloc] the descriptors in
    use are those that were, plus, on success, the one of [n] bytes at
    the returned address, carved from a descriptor that fitted; after
    [mem_free] every descriptor in use was in use before. *)
Theorem only_allocation_marks_in_use
  (ok : bool) (n ptr : Z) (w : Pool) (b : MemBlock) :
  is_available b = false ->
  (In b (pool_head (snd (mem_alloc ok n w))) ->
   In b (pool_head w) \/
   (b = mkBlock n false (fst (mem_alloc ok n w)) /\
    exists x, In x (pool_head w) /\ fits n x = true /\
              data_ptr x = fst (mem_alloc ok n w))) /\
  (In b (pool_head (mem_free ptr w)) -> In b (pool_head w)).
Proof.
  intros Hb. split.
  - rewrite mem_alloc_head, mem_alloc_fst. intros Hin.
    now apply alloc_walk_marks_one.
  - rewrite mem_free_head. destruct (ptr =? NULL); [auto|].
    intros Hin. now apply (free_walk_marks_none ptr).
Qed.

Lemma only_allocation_marks_in_use_witness :
  In (mkBlock 20 false 4126) (pool_head pool_in_use).
Proof.
  apply (proj2 (only_allocation_marks_in_use true 10 4096 pool_in_use
                  (mkBlock 20 false 4126) eq_refl)).
  simpl. right. left. reflexivity.
Defined.
